(** * lookupsource: the lookup cache and its decorator

    A shallow embedding of [processor/lookupprocessor/lookupsource/cache.go].

    - The [entries] map of the Go struct is a [gmap string cacheEntry]; the
      [order] slice is a [list string] (the slice is owned by the cache and
      never shared, so in-place [append] on sub-slices is list surgery).
    - [time.Time] and [time.Duration] are integers counting nanoseconds; the
      zero [time.Time] is [0].  Every call of [time.Now()] is a parameter of
      the operation that performs it.
    - The [sync.RWMutex] is not modelled: every operation is one atomic
      step of a sequential execution.
    - A lookup function has side effects (the tests count its calls), so it
      is a state transformer over a world [W]. *)

From stdpp Require Import numbers strings list fin_maps gmap.

#[local] Set Warnings "-clear-no-such-hyp".

Local Open Scope Z_scope.

(** ** Data model *)

Definition Time := Z.
Definition Duration := Z.

(** The zero value of [time.Time]. *)
Definition zeroTime : Time := 0.

(** [t.IsZero()] *)
Definition IsZero (t : Time) : bool := bool_decide (t = zeroTime).

(** [t.After(u)] *)
Definition After (t u : Time) : bool := bool_decide (u < t).

(** [t.Add(d)] *)
Definition Add (t : Time) (d : Duration) : Time := t + d.

Record CacheConfig := mkCacheConfig {
  Enabled : bool;
  Size : Z;
  TTL : Duration;
  NegativeTTL : Duration
}.

(** Go's [any]: [None] is the [nil] interface value. *)
Definition any (V : Type) := option V.
Definition nil {V : Type} : any V := None.

(** Go's [error]: [None] is [nil]. *)
Definition error (E : Type) := option E.

Record cacheEntry (V : Type) := mkCacheEntry {
  value : any V;
  found : bool;
  expiresAt : Time
}.
Arguments mkCacheEntry {V} _ _ _.
Arguments value {V} _.
Arguments found {V} _.
Arguments expiresAt {V} _.

Record Cache (V : Type) := mkCache {
  config : CacheConfig;
  entries : gmap string (cacheEntry V);
  order : list string
}.
Arguments mkCache {V} _ _ _.
Arguments config {V} _.
Arguments entries {V} _.
Arguments order {V} _.

(** ** Cache engine *)

Section cache.
Context {V : Type}.

(** [func (e *cacheEntry) isExpired() bool]; [now] is [time.Now()]. *)
Definition isExpired (now : Time) (e : cacheEntry V) : bool :=
  if IsZero (expiresAt e) then false else After now (expiresAt e).

(** [NewCache]: the normalised [size] only sizes the two allocations; the
    struct keeps [cfg] as it was passed. *)
Definition NewCache (cfg : CacheConfig) : Cache V :=
  let size := Size cfg in
  let size := if bool_decide (size ≤ 0) then 1000 else size in
  let _capacity := size in
  mkCache cfg ∅ [].

(** The scan [for i, k := range c.order { if k == key { ... return } }]:
    the index of the first element equal to [key]. *)
Fixpoint rangeFind (key : string) (ord : list string) : option nat :=
  match ord with
  | [] => None
  | k :: rest =>
      if bool_decide (k = key) then Some 0%nat else S <$> rangeFind key rest
  end.

(** [append(c.order[:i], c.order[i+1:]...)] *)
Definition cutAt (i : nat) (ord : list string) : list string :=
  take i ord ++ drop (S i) ord.

Definition removeEntryLocked (key : string) (c : Cache V) : Cache V :=
  let ents := delete key (entries c) in
  match rangeFind key (order c) with
  | Some i => mkCache (config c) ents (cutAt i (order c))
  | None => mkCache (config c) ents (order c)
  end.

Definition moveToEndLocked (key : string) (c : Cache V) : Cache V :=
  match rangeFind key (order c) with
  | Some i => mkCache (config c) (entries c) (cutAt i (order c) ++ [key])
  | None => c
  end.

(** [get] returns [((value, lookupFound, cacheHit), cache')]. *)
Definition get (now : Time) (key : string) (c : Cache V)
  : (any V * bool * bool) * Cache V :=
  match entries c !! key with
  | None => ((nil, false, false), c)
  | Some entry =>
      if isExpired now entry
      then ((nil, false, false), removeEntryLocked key c)
      else ((value entry, found entry, true), c)
  end.

(** The loop
    [for len(c.entries) >= c.config.Size && len(c.order) > 0 { ... }]
    by recursion on the order sequence, which loses its head at every
    iteration. *)
Fixpoint evict (cap : Z) (ents : gmap string (cacheEntry V))
    (ord : list string) : gmap string (cacheEntry V) * list string :=
  match ord with
  | [] => (ents, [])
  | oldest :: rest =>
      if bool_decide (cap ≤ Z.of_nat (size ents))
      then evict cap (delete oldest ents) rest
      else (ents, ord)
  end.

Definition set (now : Time) (key : string) (val : any V) (fnd : bool)
    (c : Cache V) : Cache V :=
  let cfg := config c in
  if negb fnd && bool_decide (NegativeTTL cfg = 0) then c
  else
    let ttl := if fnd then TTL cfg else NegativeTTL cfg in
    let exp := if bool_decide (0 < ttl) then Add now ttl else zeroTime in
    let e := mkCacheEntry val fnd exp in
    match entries c !! key with
    | Some _ =>
        moveToEndLocked key (mkCache cfg (<[key := e]> (entries c)) (order c))
    | None =>
        let '(ents, ord) := evict (Size cfg) (entries c) (order c) in
        mkCache cfg (<[key := e]> ents) (ord ++ [key])
    end.

Definition Clear (c : Cache V) : Cache V := mkCache (config c) ∅ [].

(** [func (c *Cache) Size() int] *)
Definition Cache_Size (c : Cache V) : Z := Z.of_nat (size (entries c)).

End cache.

(** ** Lookup decorator *)

Section decorator.
Context {V E Ctx : Type}.

(** [LookupFunc]: [func(ctx, key) (any, bool, error)], over a world [W]
    that the function may read and change. *)
Definition LookupFunc (W : Type) : Type :=
  Ctx → string → W → (any V * bool * error E) * W.

(** The clock readings of one decorated call: [time.Now()] inside [get]
    and inside [set]. *)
Record Clock := mkClock { atGet : Time; atSet : Time }.

(** A decorated function acts on the cache object and the world. *)
Definition CachedFunc (W : Type) : Type :=
  Ctx → string → Clock → Cache V * W → (any V * bool * error E) * (Cache V * W).

(** [return fn]: the cache is not consulted. *)
Definition bypass {W} (fn : LookupFunc W) : CachedFunc W :=
  fun ctx key _ '(c, w) =>
    let '(r, w') := fn ctx key w in (r, (c, w')).

(** The closure returned by [WrapWithCache]. *)
Definition cachedLookup {W} (fn : LookupFunc W) : CachedFunc W :=
  fun ctx key clk '(c, w) =>
    match get (atGet clk) key c with
    | ((val, lookupFound, true), c1) => ((val, lookupFound, None), (c1, w))
    | ((_, _, false), c1) =>
        let '((val, fnd, err), w') := fn ctx key w in
        match err with
        | Some e => ((nil, false, Some e), (c1, w'))
        | None => ((val, fnd, None), (set (atSet clk) key val fnd c1, w'))
        end
    end.

(** [WrapWithCache(cache, fn)]; [cache = None] is the nil pointer, and
    [Some c] is the object it points to when the wrapper is built. *)
Definition WrapWithCache {W} (cache : option (Cache V)) (fn : LookupFunc W)
  : CachedFunc W :=
  match cache with
  | None => bypass fn
  | Some c => if negb (Enabled (config c)) then bypass fn else cachedLookup fn
  end.

(** A lookup function instrumented with a call counter, as the tests do
    with [lookupCount++]. *)
Definition counted {W} (fn : LookupFunc W) : LookupFunc (W * nat) :=
  fun ctx key '(w, n) =>
    let '(r, w') := fn ctx key w in (r, (w', S n)).

End decorator.
Arguments LookupFunc : clear implicits.
Arguments CachedFunc : clear implicits.

(** ** Call sequences and specification vocabulary *)

(** One call [c.set(key, value, found)] together with the clock reading it
    makes. *)
Definition SetCall (V : Type) : Type := Time * string * any V * bool.

Definition applySet {V} (c : Cache V) (call : SetCall V) : Cache V :=
  let '(now, key, val, fnd) := call in set now key val fnd c.

Definition runSets {V} (calls : list (SetCall V)) (c : Cache V) : Cache V :=
  foldl applySet c calls.

(** Two invocations of a decorated function with the same key, one after
    the other. *)
Definition twoCalls {V E Ctx W} (f : CachedFunc V E Ctx W) (ctx : Ctx)
    (key : string) (clk1 clk2 : Clock) (s : Cache V * W)
  : (any V * bool * error E) * (any V * bool * error E) * (Cache V * W) :=
  let '(r1, s1) := f ctx key clk1 s in
  let '(r2, s2) := f ctx key clk2 s1 in
  (r1, r2, s2).

(** The keys of the map are the elements of the order sequence, and no
    key occurs twice in the sequence. *)
Definition lockstepOn {V} (ents : gmap string (cacheEntry V))
    (ord : list string) : Prop :=
  dom ents = list_to_set ord ∧ NoDup ord.

Definition lockstep {V} (c : Cache V) : Prop :=
  lockstepOn (entries c) (order c).

(** The expiry instant [set] computes: [now + ttl] for a positive [ttl],
    the zero time otherwise. *)
Definition expiryFor (cfg : CacheConfig) (now : Time) (fnd : bool) : Time :=
  let ttl := if fnd then TTL cfg else NegativeTTL cfg in
  if bool_decide (0 < ttl) then Add now ttl else zeroTime.

(** [set] passes its guard: the result is positive, or negative caching
    is on. *)
Definition cacheable (cfg : CacheConfig) (fnd : bool) : Prop :=
  fnd = true ∨ NegativeTTL cfg ≠ 0.

(** One call [set(key, value, found)] refreshes a resident key:
    the entry now holds [(value, found)] and the key is last in the order
    sequence. *)
Definition refreshedBy {V} (now : Time) (key : string) (val : any V)
    (fnd : bool) (c : Cache V) : Prop :=
  (∃ exp, entries (set now key val fnd c) !! key
          = Some (mkCacheEntry val fnd exp)) ∧
  last (order (set now key val fnd c)) = Some key.

(** ** Fixtures taken from the tests *)

(** [Size: 3] and nothing else set, as in the eviction test. *)
Definition cfg3 : CacheConfig := mkCacheConfig true 3 0 0.

(** [Size] left at 0. *)
Definition cfg0 : CacheConfig := mkCacheConfig true 0 0 0.

(** [Size: 3] with both kinds of result cached for a limited time. *)
Definition cfgNeg : CacheConfig := mkCacheConfig true 3 100 20.

(** [Size: 100, TTL: 50] as in the expiry test (the unit is immaterial). *)
Definition cfgTTL : CacheConfig := mkCacheConfig true 100 50 0.

Definition oneKey : Cache string :=
  set 1 "key1" (Some "value1") true (NewCache cfg3).

Definition expiring : Cache string :=
  set 1 "key" (Some "value") true (NewCache cfgTTL).

Definition twoKeys : Cache string :=
  set 2 "key2" (Some "value2") true oneKey.

(** The refresh scenario: results stored for [k1], [k2], [k3], again
    [k1], then [k4], each with its own value, flag and clock reading. *)
Definition refreshScenario {V} (cfg : CacheConfig)
    (k1 k2 k3 k4 : string) (v1 v2 v3 v1' v4 : any V)
    (f1 f2 f3 f1' f4 : bool) (t1 t2 t3 t1' t4 : Time) : Cache V :=
  runSets [(t1, k1, v1, f1); (t2, k2, v2, f2); (t3, k3, v3, f3);
           (t1', k1, v1', f1'); (t4, k4, v4, f4)] (NewCache cfg).

(** The lookup functions of the tests, over a world with nothing in it:
    one that resolves every key, one that finds nothing, one that fails
    while still returning a value and a true flag. *)
Definition baseFn : LookupFunc string string unit unit :=
  fun _ key w => ((Some ("value-" +:+ key), true, None), w).

Definition notFoundFn : LookupFunc string string unit unit :=
  fun _ _ w => ((nil, false, None), w).

Definition failingFn : LookupFunc string string unit unit :=
  fun _ _ w => ((Some "partial", true, Some "timeout"), w).

Definition clkA : Clock := mkClock 10 11.
Definition clkB : Clock := mkClock 20 21.

(** The keys of a sequence of [set] calls, in call order. *)
Definition keysOf {V} (calls : list (SetCall V)) : list string :=
  (λ call : SetCall V, call.1.1.2) <$> calls.

(** ** Mixed operation sequences *)

(** One call on the cache engine: [set], [get] or [Clear], with the clock
    reading it makes. *)
Inductive Op (V : Type) : Type :=
| OpSet (now : Time) (key : string) (val : any V) (fnd : bool)
| OpGet (now : Time) (key : string)
| OpClear.
Arguments OpSet {V} _ _ _ _.
Arguments OpGet {V} _ _.
Arguments OpClear {V}.

Definition applyOp {V} (c : Cache V) (op : Op V) : Cache V :=
  match op with
  | OpSet now key val fnd => set now key val fnd c
  | OpGet now key => (get now key c).2
  | OpClear => Clear c
  end.

Definition runOps {V} (ops : list (Op V)) (c : Cache V) : Cache V :=
  foldl applyOp c ops.

(** A series of invocations of a decorated function, each with its key and
    its clock readings; the results are dropped, the state is threaded. *)
Definition runCalls {V E Ctx W} (f : CachedFunc V E Ctx W) (ctx : Ctx)
    (calls : list (string * Clock)) (s : Cache V * W) : Cache V * W :=
  foldl (fun s call => (f ctx call.1 call.2 s).2) s calls.

(** ** The dns source, a caller of the cache

    [internal/source/dns]: configuration, validation, the reverse lookup
    and [createSource], which wraps the lookup with the cache.  What the
    package takes from [net], [errors], [context], [fmt] and
    [lookupsource.NewSource] is a parameter. *)

(** [strings.HasSuffix] and [strings.TrimSuffix]. *)
Definition HasSuffix (s suffix : string) : bool :=
  bool_decide (String.length suffix ≤ String.length s)%nat &&
  bool_decide
    (String.substring (String.length s - String.length suffix)
       (String.length suffix) s = suffix).

Definition TrimSuffix (s suffix : string) : string :=
  if HasSuffix s suffix
  then String.substring 0 (String.length s - String.length suffix) s
  else s.

(** [time.Second] and [time.Minute], in nanoseconds. *)
Definition Second : Duration := 1000000000.
Definition Minute : Duration := 60 * Second.

Definition sourceType : string := "dns".

(** [type RecordType string] *)
Definition RecordType : Type := string.
Definition RecordTypePTR : RecordType := "PTR".

Record Config := mkConfig {
  Config_RecordType : RecordType;
  Config_Timeout : Duration;
  Config_Server : string;
  Config_Cache : CacheConfig
}.

(** The two fields of [net.DNSError] the package reads. *)
Record DNSError := mkDNSError { IsNotFound : bool; IsTemporary : bool }.

(** The method [LookupAddr] of a [net.Resolver]: names and error, over
    the world. *)
Definition Resolver (E Ctx W : Type) : Type :=
  Ctx → string → W → (list string * error E) * W.

(** What the package uses from outside: [net.DefaultResolver]; the
    resolver whose [Dial] connects to a server with a timeout;
    [errors.As(err, &dnsErr)]; [context.WithTimeout]. *)
Record Net (E Ctx W : Type) := mkNet {
  DefaultResolver : Resolver E Ctx W;
  dialResolver : Duration → string → Resolver E Ctx W;
  asDNSError : E → option DNSError;
  WithTimeout : Ctx → Duration → Ctx
}.
Arguments DefaultResolver {E Ctx W} _.
Arguments dialResolver {E Ctx W} _ _ _.
Arguments asDNSError {E Ctx W} _ _.
Arguments WithTimeout {E Ctx W} _ _ _.

Record dnsSource (E Ctx W : Type) := mkDnsSource {
  recordType : RecordType;
  timeout : Duration;
  resolver : Resolver E Ctx W
}.
Arguments mkDnsSource {E Ctx W} _ _ _.
Arguments recordType {E Ctx W} _.
Arguments timeout {E Ctx W} _.
Arguments resolver {E Ctx W} _.

Section dns.
Context {E Ctx W : Type}.

(** [fmt]'s [%q] verb is the parameter [Quote]. *)
Definition Config_Validate (Quote : string → string) (c : Config)
  : error string :=
  if bool_decide (Config_RecordType c = "") ||
     bool_decide (Config_RecordType c = RecordTypePTR)
  then
    if bool_decide (Config_Timeout c < 0)
    then Some "timeout cannot be negative"
    else None
  else
    Some ("invalid record_type " +:+ Quote (Config_RecordType c) +:+
          ", only PTR is currently supported").

Definition createDefaultConfig : Config :=
  mkConfig RecordTypePTR (5 * Second) ""
    (mkCacheConfig true 10000 (5 * Minute) (1 * Minute)).

(** [lookupPTR]: the reverse lookup; a DNS error that is "not found" or
    temporary is turned into a negative result. *)
Definition dnsSource_lookupPTR (env : Net E Ctx W) (s : dnsSource E Ctx W)
  : LookupFunc string E Ctx W :=
  fun ctx ip w =>
    let '((names, err), w') := resolver s ctx ip w in
    match err with
    | Some e =>
        match asDNSError env e with
        | Some dnsErr =>
            if IsNotFound dnsErr || IsTemporary dnsErr
            then ((nil, false, None), w')
            else ((nil, false, Some e), w')
        | None => ((nil, false, Some e), w')
        end
    | None =>
        match names with
        | [] => ((nil, false, None), w')
        | first :: _ => ((Some (TrimSuffix first "."), true, None), w')
        end
    end.

(** [lookup]: the reverse lookup under the source's timeout. *)
Definition dnsSource_lookup (env : Net E Ctx W) (s : dnsSource E Ctx W)
  : LookupFunc string E Ctx W :=
  fun ctx key w =>
    let ctx := WithTimeout env ctx (timeout s) in
    dnsSource_lookupPTR env s ctx key w.

(** [createSource].  [NewSource] receives the lookup function, the type
    function and two nil hooks; the result is paired with the (always nil)
    error and with the cache object allocated on the way, if any: the
    lookup function acts on that object. *)
Definition createSource {Source Hook : Type} (env : Net E Ctx W)
    (NewSource : CachedFunc string E Ctx W → (unit → string) →
                 option Hook → option Hook → Source)
    (dnsCfg : Config)
  : (Source * error E) * option (Cache string) :=
  let recordType :=
    if bool_decide (Config_RecordType dnsCfg = "") then RecordTypePTR
    else Config_RecordType dnsCfg in
  let timeout :=
    if bool_decide (Config_Timeout dnsCfg = 0) then 5 * Second
    else Config_Timeout dnsCfg in
  let resolver :=
    if bool_decide (Config_Server dnsCfg ≠ "")
    then dialResolver env timeout (Config_Server dnsCfg)
    else DefaultResolver env in
  let s := mkDnsSource recordType timeout resolver in
  let '(lookupFn, cache) :=
    if Enabled (Config_Cache dnsCfg)
    then
      let cache := NewCache (Config_Cache dnsCfg) in
      (WrapWithCache (Some cache) (dnsSource_lookup env s), Some cache)
    else (bypass (dnsSource_lookup env s), None) in
  ((NewSource lookupFn (fun _ => sourceType) None None, None), cache).

(** A resolver instrumented with a query counter. *)
Definition countedResolver (r : Resolver E Ctx W) : Resolver E Ctx (W * nat) :=
  fun ctx ip '(w, n) =>
    let '(res, w') := r ctx ip w in (res, (w', S n)).

Definition countedNet (env : Net E Ctx W) : Net E Ctx (W * nat) :=
  mkNet E Ctx (W * nat)
    (countedResolver (DefaultResolver env))
    (fun t server => countedResolver (dialResolver env t server))
    (asDNSError env)
    (WithTimeout env).

End dns.

(** A resolver for examples: one address has a name, every other query
    fails with a "no such host" DNS error. *)
Definition testResolver : Resolver string unit unit :=
  fun _ ip w =>
    if bool_decide (ip = "8.8.8.8") then ((["dns.google."], None), w)
    else (([], Some "no such host"), w).

Definition testNet : Net string unit unit :=
  mkNet string unit unit testResolver (fun _ _ => testResolver)
    (fun e => if bool_decide (e = "no such host")
              then Some (mkDNSError true false) else None)
    (fun ctx _ => ctx).

(** ** The lockstep invariant *)

Section invariant.
Context {V : Type}.
Implicit Types (c : Cache V) (ents : gmap string (cacheEntry V))
  (ord : list string) (key k : string).

Lemma rangeFind_None key ord : rangeFind key ord = None ↔ key ∉ ord.
Proof.
  induction ord as [|k rest IH]; simpl.
  - split; [intros _; apply not_elem_of_nil | done].
  - case_bool_decide as Hk.
    + subst k. split; [done | intros []; left].
    + rewrite fmap_None, IH, not_elem_of_cons. naive_solver.
Qed.

Lemma rangeFind_Some key ord i :
  rangeFind key ord = Some i →
  ord = take i ord ++ key :: drop (S i) ord ∧ key ∉ take i ord.
Proof.
  revert i. induction ord as [|k rest IH]; intros i; simpl; [done|].
  case_bool_decide as Hk.
  - intros [= <-]. subst k. simpl. rewrite drop_0.
    split; [done | apply not_elem_of_nil].
  - destruct (rangeFind key rest) as [j|] eqn:Hj; simpl; [|done].
    intros [= <-]. destruct (IH j eq_refl) as [Heq Hnin]. simpl.
    split; [by rewrite <- Heq | rewrite not_elem_of_cons; naive_solver].
Qed.

Lemma rangeFind_is_Some key ord :
  key ∈ ord → is_Some (rangeFind key ord).
Proof.
  intros Hin. destruct (rangeFind key ord) eqn:Hr; [by eexists|].
  by apply rangeFind_None in Hr.
Qed.

(** Cutting the first occurrence out of a duplicate-free sequence removes
    the key and nothing else. *)
Lemma cutAt_spec key ord i :
  NoDup ord → rangeFind key ord = Some i →
  NoDup (cutAt i ord) ∧ (key ∉ cutAt i ord) ∧
  list_to_set (C:=gset string) (cutAt i ord) = list_to_set ord ∖ {[key]}.
Proof.
  intros Hnd Hr. apply rangeFind_Some in Hr as [Heq Hnin].
  unfold cutAt. rewrite Heq in Hnd.
  apply NoDup_app in Hnd as (Hnd1 & Hdisj & Hnd2).
  apply NoDup_cons in Hnd2 as [Hnin2 Hnd2].
  split_and!.
  - apply NoDup_app. split_and!; [done | | done].
    intros x Hx Hx'. apply (Hdisj x Hx). by right.
  - rewrite elem_of_app. naive_solver.
  - rewrite Heq at 3. rewrite !list_to_set_app_L, list_to_set_cons.
    apply set_eq. intros x.
    rewrite !elem_of_union, elem_of_difference, !elem_of_union,
      !elem_of_list_to_set, elem_of_singleton.
    split; [|naive_solver].
    intros [Hx|Hx]; (split; [naive_solver | intros ->; done]).
Qed.

Lemma lockstep_size ents ord :
  lockstepOn ents ord → size ents = length ord.
Proof.
  intros [Hdom Hnd]. rewrite <- size_dom, Hdom.
  by apply size_list_to_set.
Qed.

Lemma lockstep_lookup ents ord key :
  lockstepOn ents ord → key ∈ ord ↔ is_Some (ents !! key).
Proof.
  intros [Hdom _]. rewrite <- elem_of_dom, Hdom. by rewrite elem_of_list_to_set.
Qed.

Lemma NewCache_lockstep cfg : lockstep (NewCache (V:=V) cfg).
Proof.
  split; simpl; [by rewrite dom_empty_L | constructor].
Qed.

Lemma Clear_lockstep c : lockstep (Clear c).
Proof.
  split; simpl; [by rewrite dom_empty_L | constructor].
Qed.

Lemma removeEntryLocked_lockstep key c :
  lockstep c → lockstep (removeEntryLocked key c).
Proof.
  intros [Hdom Hnd]. unfold removeEntryLocked, lockstep, lockstepOn.
  destruct (rangeFind key (order c)) as [i|] eqn:Hr; simpl.
  - destruct (cutAt_spec _ _ _ Hnd Hr) as (Hnd' & _ & Hset).
    split; [|done]. by rewrite dom_delete_L, Hset, Hdom.
  - apply rangeFind_None in Hr. split; [|done].
    rewrite dom_delete_L, Hdom.
    apply set_eq. intros x.
    rewrite elem_of_difference, elem_of_list_to_set, elem_of_singleton.
    naive_solver.
Qed.

Lemma removeEntryLocked_entries key c :
  entries (removeEntryLocked key c) = delete key (entries c).
Proof. unfold removeEntryLocked. by destruct (rangeFind key (order c)). Qed.

Lemma removeEntryLocked_gone key c :
  lockstep c →
  entries (removeEntryLocked key c) !! key = None ∧
  key ∉ order (removeEntryLocked key c).
Proof.
  intros [Hdom Hnd]. unfold removeEntryLocked.
  destruct (rangeFind key (order c)) as [i|] eqn:Hr; simpl;
    (split; [apply lookup_delete_eq|]).
  - by destruct (cutAt_spec _ _ _ Hnd Hr) as (_ & ? & _).
  - by apply rangeFind_None.
Qed.

Lemma moveToEndLocked_lockstep key c :
  lockstep c → lockstep (moveToEndLocked key c).
Proof.
  intros [Hdom Hnd]. unfold moveToEndLocked, lockstep, lockstepOn.
  destruct (rangeFind key (order c)) as [i|] eqn:Hr; simpl; [|done].
  destruct (cutAt_spec _ _ _ Hnd Hr) as (Hnd' & Hnin & Hset).
  assert (key ∈ order c) as Hin.
  { destruct (decide (key ∈ order c)) as [|Hn]; [done|].
    apply rangeFind_None in Hn. congruence. }
  split.
  - rewrite Hdom, list_to_set_app_L, Hset. simpl.
    apply set_eq. intros x.
    rewrite !elem_of_union, elem_of_difference, elem_of_list_to_set,
      elem_of_singleton, elem_of_empty.
    destruct (decide (x = key)) as [->|]; naive_solver.
  - apply NoDup_app. split_and!; [done | | apply NoDup_singleton].
    intros x Hx ->%list_elem_of_singleton. done.
Qed.

(** One iteration of the eviction loop: dropping the head of the sequence
    together with its entry. *)
Lemma lockstepOn_tail oldest ents ord :
  lockstepOn ents (oldest :: ord) → lockstepOn (delete oldest ents) ord.
Proof.
  intros [Hdom Hnd]. apply NoDup_cons in Hnd as [Hnin Hnd].
  split; [|done]. rewrite dom_delete_L, Hdom, list_to_set_cons.
  apply set_eq. intros x.
  rewrite elem_of_difference, elem_of_union, elem_of_list_to_set,
    elem_of_singleton.
  split; [naive_solver|]. intros Hx. split; [by right|]. by intros ->.
Qed.

Lemma evict_lockstep cap ents ord :
  lockstepOn ents ord →
  lockstepOn (evict cap ents ord).1 (evict cap ents ord).2.
Proof.
  revert ents. induction ord as [|oldest rest IH]; intros ents Hinv; simpl.
  - done.
  - case_bool_decide; [|done]. by apply IH, lockstepOn_tail.
Qed.

(** Against a capacity that is not positive the loop runs until nothing
    is left. *)
Lemma evict_nonpositive cap ents ord :
  cap ≤ 0 → lockstepOn ents ord → evict cap ents ord = (∅, []).
Proof.
  intros Hcap. revert ents.
  induction ord as [|oldest rest IH]; intros ents Hinv; simpl.
  - destruct Hinv as [Hdom _]. f_equal. by apply dom_empty_inv_L.
  - rewrite bool_decide_eq_true_2 by lia. by apply IH, lockstepOn_tail.
Qed.

(** When the loop stops, the map is below capacity or the order
    sequence is used up. *)
Lemma evict_stops cap ents ord :
  Z.of_nat (size (evict cap ents ord).1) < cap ∨ (evict cap ents ord).2 = [].
Proof.
  revert ents. induction ord as [|oldest rest IH]; intros ents; simpl.
  - by right.
  - case_bool_decide; [apply IH | left; simpl; lia].
Qed.

Lemma evict_lookup_None cap ents ord key :
  ents !! key = None → (evict cap ents ord).1 !! key = None.
Proof.
  revert ents. induction ord as [|oldest rest IH]; intros ents Hk; simpl.
  - done.
  - case_bool_decide; [|done]. apply IH.
    rewrite lookup_delete_None. by right.
Qed.

Lemma set_config now key val fnd c :
  config (set now key val fnd c) = config c.
Proof.
  unfold set. destruct (negb fnd && _); [done|].
  destruct (entries c !! key).
  - unfold moveToEndLocked. simpl. by destruct (rangeFind key (order c)).
  - by destruct (evict _ _ _).
Qed.

Lemma set_lockstep now key val fnd c :
  lockstep c → lockstep (set now key val fnd c).
Proof.
  intros Hinv. unfold set. destruct (negb fnd && _); [done|].
  destruct (entries c !! key) as [old|] eqn:Hk.
  - apply moveToEndLocked_lockstep. destruct Hinv as [Hdom Hnd].
    split; simpl; [|done]. rewrite dom_insert_L, Hdom.
    assert (key ∈ dom (entries c)) as Hin by (apply elem_of_dom; eauto).
    rewrite Hdom in Hin. set_solver.
  - pose proof (evict_lockstep (Size (config c)) _ _ Hinv) as [Hdom Hnd].
    pose proof (evict_lookup_None (Size (config c)) _ (order c) _ Hk) as Hk'.
    destruct (evict _ _ _) as [ents ord]. simpl in *.
    assert (key ∉ ord) as Hnin.
    { rewrite <- (elem_of_list_to_set (C:=gset string)), <- Hdom.
      by apply not_elem_of_dom. }
    split; simpl.
    + rewrite dom_insert_L, Hdom, list_to_set_app_L. simpl. set_solver.
    + apply NoDup_app. split_and!; [done | | apply NoDup_singleton].
      intros x Hx ->%list_elem_of_singleton. done.
Qed.

Lemma get_lockstep now key c : lockstep c → lockstep (get now key c).2.
Proof.
  intros Hinv. unfold get. destruct (entries c !! key) as [e|]; [|done].
  destruct (isExpired now e); [|done]. simpl.
  by apply removeEntryLocked_lockstep.
Qed.

End invariant.

(** ** What [set] stores *)

Section set_facts.
Context {V : Type}.
Implicit Types (c : Cache V) (key oldest : string) (val : any V).

Lemma guard_false cfg fnd :
  cacheable cfg fnd → negb fnd && bool_decide (NegativeTTL cfg = 0) = false.
Proof.
  intros [-> | Hn]; [done|].
  rewrite bool_decide_eq_false_2 by done. apply andb_false_r.
Qed.

Lemma set_noop now key val c :
  NegativeTTL (config c) = 0 → set now key val false c = c.
Proof. intros H0. unfold set. by rewrite bool_decide_eq_true_2. Qed.

Lemma set_lookup now key val fnd c :
  cacheable (config c) fnd →
  entries (set now key val fnd c) !! key
  = Some (mkCacheEntry val fnd (expiryFor (config c) now fnd)).
Proof.
  intros Hg. unfold set. rewrite guard_false by done.
  destruct (entries c !! key).
  - unfold moveToEndLocked. simpl.
    destruct (rangeFind key (order c)); simpl; apply lookup_insert_eq.
  - destruct (evict _ _ _). simpl. apply lookup_insert_eq.
Qed.

(** Update in place: the entry is replaced and the key moves to the end
    of the order sequence. *)
Lemma set_existing now key val fnd c old :
  lockstep c → entries c !! key = Some old → cacheable (config c) fnd →
  ∃ pre post,
    order c = pre ++ key :: post ∧
    set now key val fnd c =
      mkCache (config c)
        (<[key := mkCacheEntry val fnd (expiryFor (config c) now fnd)]>
           (entries c))
        (pre ++ post ++ [key]).
Proof.
  intros Hinv Hk Hg.
  assert (key ∈ order c) as Hin by (apply (lockstep_lookup _ _ _ Hinv); eauto).
  destruct (rangeFind_is_Some _ _ Hin) as [i Hi].
  destruct (rangeFind_Some _ _ _ Hi) as [Heq _].
  exists (take i (order c)), (drop (S i) (order c)). split; [done|].
  unfold set. rewrite guard_false, Hk by done.
  unfold moveToEndLocked. simpl. rewrite Hi. unfold cutAt.
  by rewrite <- app_assoc.
Qed.

Lemma rangeFind_app key (pre post : list string) :
  key ∉ pre → rangeFind key (pre ++ key :: post) = Some (length pre).
Proof.
  induction pre as [|k pre IH]; simpl.
  - intros _. by rewrite bool_decide_eq_true_2.
  - intros [Hne Hnin]%not_elem_of_cons.
    rewrite bool_decide_eq_false_2 by done. by rewrite IH.
Qed.

(** The same, with the position of the key in the sequence given. *)
Lemma set_existing_at now key val fnd c pre post :
  lockstep c → order c = pre ++ key :: post → cacheable (config c) fnd →
  set now key val fnd c =
    mkCache (config c)
      (<[key := mkCacheEntry val fnd (expiryFor (config c) now fnd)]>
         (entries c))
      (pre ++ post ++ [key]).
Proof.
  intros Hinv Hord Hg.
  assert (is_Some (entries c !! key)) as [old Hk].
  { apply (lockstep_lookup _ _ _ Hinv). rewrite Hord.
    apply elem_of_app. right. left. }
  assert (key ∉ pre) as Hnin.
  { destruct Hinv as [_ Hnd]. rewrite Hord in Hnd.
    apply NoDup_app in Hnd as (_ & Hdisj & _).
    intros Hin. apply (Hdisj _ Hin). left. }
  unfold set. rewrite guard_false, Hk by done.
  unfold moveToEndLocked. simpl. rewrite Hord, rangeFind_app by done.
  unfold cutAt. rewrite take_app_length, drop_app_ge by lia.
  replace (S (length pre) - length pre)%nat with 1%nat by lia.
  simpl. by rewrite drop_0, <- app_assoc.
Qed.

(** An entry stamped at [t] is live at [tg] when it has no expiry or
    [tg] is not after it. *)
Lemma stamped_live (cfg : CacheConfig) (t tg : Time) (fnd : bool) val :
  (0 < (if fnd then TTL cfg else NegativeTTL cfg) →
   tg ≤ t + (if fnd then TTL cfg else NegativeTTL cfg)) →
  isExpired tg (mkCacheEntry val fnd (expiryFor cfg t fnd)) = false.
Proof.
  unfold isExpired, expiryFor, IsZero, After, Add, zeroTime. simpl.
  intros Hlive. destruct fnd; repeat case_bool_decide; try done; lia.
Qed.

(** Insertion below capacity evicts nothing. *)
Lemma set_new_room now key val fnd c :
  lockstep c → entries c !! key = None → cacheable (config c) fnd →
  Z.of_nat (length (order c)) < Size (config c) →
  set now key val fnd c =
    mkCache (config c)
      (<[key := mkCacheEntry val fnd (expiryFor (config c) now fnd)]>
         (entries c))
      (order c ++ [key]).
Proof.
  intros Hinv Hk Hg Hlen. unfold set. rewrite guard_false, Hk by done.
  rewrite <- (lockstep_size _ _ Hinv) in Hlen.
  destruct (order c) as [|oldest rest]; simpl; [done|].
  by rewrite bool_decide_eq_false_2 by lia.
Qed.

(** Insertion at capacity evicts the head of the order sequence, and
    only the head. *)
Lemma set_new_full now key val fnd c oldest rest :
  lockstep c → entries c !! key = None → cacheable (config c) fnd →
  order c = oldest :: rest →
  Z.of_nat (length (order c)) = Size (config c) →
  set now key val fnd c =
    mkCache (config c)
      (<[key := mkCacheEntry val fnd (expiryFor (config c) now fnd)]>
         (delete oldest (entries c)))
      (rest ++ [key]).
Proof.
  intros Hinv Hk Hg Hord Hlen. unfold set. rewrite guard_false, Hk by done.
  pose proof (lockstep_size _ _ Hinv) as Hsz.
  assert (is_Some (entries c !! oldest)) as [eo Heo].
  { apply (lockstep_lookup _ _ _ Hinv). rewrite Hord. left. }
  rewrite Hord in *. simpl in *.
  rewrite bool_decide_eq_true_2 by lia.
  assert (size (delete oldest (entries c)) = length rest) as Hsz'.
  { rewrite map_size_delete_Some by eauto. lia. }
  destruct rest as [|next rest']; simpl; [done|].
  by rewrite bool_decide_eq_false_2 by (simpl in *; lia).
Qed.

(** With [Size ≤ 0] an insertion throws every resident entry out first:
    the new key is the only one left. *)
Lemma set_nonpositive_size now key val fnd c :
  lockstep c → Size (config c) ≤ 0 →
  entries c !! key = None → cacheable (config c) fnd →
  set now key val fnd c =
    mkCache (config c)
      {[key := mkCacheEntry val fnd (expiryFor (config c) now fnd)]} [key].
Proof.
  intros Hinv Hsz Hk Hg. unfold set. rewrite guard_false, Hk by done.
  rewrite evict_nonpositive by done. by rewrite insert_empty.
Qed.

(** One [set] never leaves more than [Size] entries behind, for a
    positive [Size]. *)
Lemma set_capacity now key val fnd c :
  lockstep c → 0 < Size (config c) →
  Cache_Size c ≤ Size (config c) →
  Cache_Size (set now key val fnd c) ≤ Size (config c).
Proof.
  intros Hinv Hpos Hle. unfold Cache_Size, set in *.
  destruct (negb fnd && _); [done|].
  destruct (entries c !! key) as [old|] eqn:Hk.
  - unfold moveToEndLocked. simpl.
    destruct (rangeFind key (order c)); simpl;
      rewrite map_size_insert_Some by eauto; lia.
  - pose proof (evict_lockstep (Size (config c)) _ _ Hinv) as Hinv'.
    pose proof (evict_stops (Size (config c)) (entries c) (order c)) as Hstop.
    pose proof (evict_lookup_None (Size (config c)) _ (order c) _ Hk) as Hk'.
    destruct (evict _ _ _) as [ents ord]. simpl in *.
    rewrite map_size_insert_None by done.
    destruct Hstop as [Hlt | ->]; [lia|].
    apply lockstep_size in Hinv'. simpl in Hinv'. lia.
Qed.

End set_facts.

Section capacity.
Context {V : Type}.

Lemma runSets_bounded (calls : list (SetCall V)) (c : Cache V) :
  lockstep c → 0 < Size (config c) → Cache_Size c ≤ Size (config c) →
  lockstep (runSets calls c) ∧
  config (runSets calls c) = config c ∧
  Cache_Size (runSets calls c) ≤ Size (config c).
Proof.
  revert c. induction calls as [|[[[now key] val] fnd] calls IH];
    intros c Hinv Hpos Hle; simpl; [done|].
  destruct (IH (set now key val fnd c)) as (Hi & Hc & Hs).
  - by apply set_lockstep.
  - by rewrite set_config.
  - rewrite set_config. by apply set_capacity.
  - rewrite set_config in Hc, Hs. done.
Qed.

End capacity.

(** ** Facts about the decorator *)

Section decorator_facts.
Context {V E Ctx W : Type}.
Implicit Types (c : Cache V) (fn : LookupFunc V E Ctx W) (key : string).

Lemma get_config now key c : config (get now key c).2 = config c.
Proof.
  unfold get. destruct (entries c !! key) as [e|]; [|done].
  destruct (isExpired now e); [|done]. simpl.
  unfold removeEntryLocked. by destruct (rangeFind key (order c)).
Qed.

(** After a miss the key is not in the map, whatever the reason of the
    miss. *)
Lemma get_miss_absent now key c :
  (get now key c).1.2 = false → entries (get now key c).2 !! key = None.
Proof.
  unfold get. destruct (entries c !! key) as [e|] eqn:Hk; [|done].
  destruct (isExpired now e); [|done]. simpl. intros _.
  rewrite removeEntryLocked_entries. apply lookup_delete_eq.
Qed.

Lemma get_miss_result now key c :
  (get now key c).1.2 = false → (get now key c).1 = (nil, false, false).
Proof.
  unfold get. destruct (entries c !! key) as [e|]; [|done].
  by destruct (isExpired now e).
Qed.

(** [get] never touches the entry of another key. *)
Lemma get_other now key k c :
  k ≠ key → entries (get now key c).2 !! k = entries c !! k.
Proof.
  intros Hne. unfold get. destruct (entries c !! key) as [e|]; [|done].
  destruct (isExpired now e); [|done]. simpl.
  rewrite removeEntryLocked_entries. by apply lookup_delete_ne.
Qed.

Lemma get_absent now key c :
  entries c !! key = None → get now key c = ((nil, false, false), c).
Proof. intros Hk. unfold get. by rewrite Hk. Qed.

Lemma get_live now key c e :
  entries c !! key = Some e → isExpired now e = false →
  get now key c = ((value e, found e, true), c).
Proof. intros Hk He. unfold get. by rewrite Hk, He. Qed.

Lemma WrapWithCache_enabled c fn :
  Enabled (config c) = true → WrapWithCache (Some c) fn = cachedLookup fn.
Proof. intros He. unfold WrapWithCache. by rewrite He. Qed.

(** On a miss the closure calls the wrapped function. *)
Lemma cachedLookup_miss fn ctx key clk c w :
  (get (atGet clk) key c).1.2 = false →
  cachedLookup fn ctx key clk (c, w) =
    let c1 := (get (atGet clk) key c).2 in
    let '((val, fnd, err), w') := fn ctx key w in
    match err with
    | Some e => ((nil, false, Some e), (c1, w'))
    | None => ((val, fnd, None), (set (atSet clk) key val fnd c1, w'))
    end.
Proof.
  intros Hmiss. unfold cachedLookup.
  destruct (get (atGet clk) key c) as [[[gv gf] hit] c1]. simpl in *.
  by subst hit.
Qed.

(** On a hit it does not: the world is untouched. *)
Lemma cachedLookup_hit fn ctx key clk c w e :
  entries c !! key = Some e → isExpired (atGet clk) e = false →
  cachedLookup fn ctx key clk (c, w) = ((value e, found e, None), (c, w)).
Proof.
  intros Hk He. unfold cachedLookup. by rewrite (get_live _ _ _ e).
Qed.

(** A key that is resident and live at both invocations is served from
    the cache twice. *)
Lemma twoCalls_hit fn ctx key clk1 clk2 c w e :
  entries c !! key = Some e →
  isExpired (atGet clk1) e = false → isExpired (atGet clk2) e = false →
  twoCalls (cachedLookup fn) ctx key clk1 clk2 (c, w)
  = ((value e, found e, None), (value e, found e, None), (c, w)).
Proof.
  intros Hk He1 He2. unfold twoCalls.
  by rewrite !(cachedLookup_hit _ _ _ _ _ _ e).
Qed.

(** A nil or disabled cache gives the wrapped function back. *)
Lemma WrapWithCache_bypass (cache : option (Cache V)) fn :
  cache = None ∨ (∃ c, cache = Some c ∧ Enabled (config c) = false) →
  WrapWithCache cache fn = bypass fn.
Proof.
  intros [-> | (c & -> & Hoff)]; [done|].
  unfold WrapWithCache. by rewrite Hoff.
Qed.

End decorator_facts.

(** ** Sanity checks on the test scenarios *)

Example lru_eviction_order :
  order (set 4 "key4" (Some 4%nat) true
          (set 3 "key3" (Some 3%nat) true
            (set 2 "key2" (Some 2%nat) true
              (set 1 "key1" (Some 1%nat) true (NewCache cfg3)))))
  = ["key2"; "key3"; "key4"]%string.
Proof. vm_compute. reflexivity. Qed.


(** [TestWrapWithCacheDisabled]: three calls, three lookups. *)
Example disabled_cache_counts_every_call :
  let f := WrapWithCache (Some (NewCache (mkCacheConfig false 0 0 0)))
             (counted baseFn) in
  let s0 := (NewCache (mkCacheConfig false 0 0 0), (tt, 0%nat)) in
  let s1 := (f tt "key1" clkA s0).2 in
  let s2 := (f tt "key1" clkA s1).2 in
  (f tt "key1" clkB s2).2.2.2 = 3%nat.
Proof. vm_compute. reflexivity. Qed.

(** [TestCacheTTLExpiration]: a hit at once, a miss after the TTL. *)
Example ttl_expiration :
  (get 2 "key" expiring).1 = (Some "value", true, true) ∧
  (get 61 "key" expiring).1 = (nil, false, false) ∧
  Cache_Size (get 61 "key" expiring).2 = 0.
Proof. vm_compute. done. Qed.

(** ** The claims *)

(** C1 (the code departs from it).  A configuration with [Size = 0] does
    not give a cache of capacity 1000: [NewCache] keeps the configuration
    as passed, so the eviction loop of [set] compares against 0 and empties
    the cache before every insertion.  After two insertions one entry is
    resident and the first key is gone. *)
Theorem NewCache_size_zero_keeps_one_entry :
  let c := set 2 "b" (Some "2") true
             (set 1 "a" (Some "1") true (NewCache cfg0)) in
  Cache_Size c = 1 ∧ order c = ["b"] ∧ (get 3 "a" c).1 = (nil, false, false).
Proof. vm_compute. done. Qed.

(** C2.  Whatever [set] calls are made on a cache built by [NewCache] with
    a positive [Size] (with distinct keys or not), [Size()] is at most
    the configured size after every one of them. *)
Theorem capacity_invariant {V} (cfg : CacheConfig) (calls : list (SetCall V))
    (n : nat) :
  0 < Size cfg →
  Cache_Size (runSets (take n calls) (NewCache cfg)) ≤ Size cfg.
Proof.
  intros Hpos.
  destruct (runSets_bounded (take n calls) (NewCache (V:=V) cfg))
    as (_ & _ & Hs); [apply NewCache_lockstep | done | | done].
  unfold Cache_Size. simpl. rewrite map_size_empty. lia.
Qed.

Lemma capacity_invariant_witness :
  0 < Size cfg3 ∧
  Cache_Size
    (runSets (take 4 [(1, "key1", Some "value1", true);
                      (2, "key2", Some "value2", true);
                      (3, "key3", Some "value3", true);
                      (4, "key4", Some "value4", true)])
       (NewCache cfg3)) ≤ Size cfg3.
Proof.
  split; [done|]. apply capacity_invariant. done.
Defined.

(** C3.  [set], [get] (with its removal of an expired entry) and [Clear]
    keep the keys of [entries] equal to the elements of [order], each
    occurring once. *)
Theorem lockstep_preserved {V} (c : Cache V) :
  lockstep c →
  (∀ now key val fnd, lockstep (set now key val fnd c)) ∧
  (∀ now key, lockstep (get now key c).2) ∧
  (∀ key, lockstep (removeEntryLocked key c)) ∧
  lockstep (Clear c).
Proof.
  intros Hinv. split_and!.
  - intros. by apply set_lockstep.
  - intros. by apply get_lockstep.
  - intros. by apply removeEntryLocked_lockstep.
  - apply Clear_lockstep.
Qed.

Lemma lockstep_preserved_witness :
  lockstep oneKey ∧ lockstep (set 2 "key2" (Some "value2") true oneKey).
Proof.
  assert (lockstep oneKey) as Hc.
  { split; [vm_compute; reflexivity | apply NoDup_singleton]. }
  split; [exact Hc|]. apply (lockstep_preserved oneKey Hc).
Defined.

(** C4.  [get] is a hit carrying the stored [(value, found)] exactly when
    the key is present and its [expiresAt] is zero (not set) or not before
    [now]; otherwise it returns [(nil, false, false)]; a miss on an absent
    key leaves the cache alone, and a miss on an expired entry deletes the
    key from [entries] and takes it out of [order]. *)
Theorem get_spec {V} (now : Time) (key : string) (c : Cache V) :
  let r := get now key c in
  (r.1.2 = true ↔
     ∃ e, entries c !! key = Some e ∧
          (expiresAt e = zeroTime ∨ now ≤ expiresAt e)) ∧
  (∀ e, entries c !! key = Some e →
        (expiresAt e = zeroTime ∨ now ≤ expiresAt e) →
        r = ((value e, found e, true), c)) ∧
  (r.1.2 = false → r.1 = (nil, false, false)) ∧
  (entries c !! key = None → r.2 = c) ∧
  (∀ e, entries c !! key = Some e →
        expiresAt e ≠ zeroTime → expiresAt e < now →
        r.1 = (nil, false, false) ∧
        entries r.2 = delete key (entries c) ∧
        entries r.2 !! key = None ∧
        (lockstep c → (key ∉ order r.2) ∧ lockstep r.2)).
Proof.
  assert (∀ e : cacheEntry V, isExpired now e = false ↔
            (expiresAt e = zeroTime ∨ now ≤ expiresAt e)) as Hexp.
  { intros e. unfold isExpired, IsZero, After.
    repeat case_bool_decide; split; try done; try lia; eauto. }
  simpl. unfold get.
  destruct (entries c !! key) as [e0|] eqn:Hk.
  - destruct (isExpired now e0) eqn:He; simpl.
    + assert (¬ (expiresAt e0 = zeroTime ∨ now ≤ expiresAt e0)) as Hn.
      { rewrite <- Hexp. congruence. }
      split_and!; try done.
      * split; [done|]. intros (e & [= <-] & Hl). by destruct Hn.
      * intros e [= <-] Hl. by destruct Hn.
      * intros e [= <-] _ _.
        rewrite removeEntryLocked_entries.
        split_and!; [done | done | apply lookup_delete_eq |].
        intros Hinv. split; [by apply removeEntryLocked_gone
                            | by apply removeEntryLocked_lockstep].
    + apply Hexp in He. split_and!; try done.
      * split; [|done]. intros _. eauto.
      * by intros e [= <-] _.
      * intros e [= <-] Hz Hlt. destruct He; [done | lia].
  - simpl. split_and!; try done.
    split; [done|]. by intros (e & ? & _).
Qed.

Lemma get_spec_witness :
  lockstep expiring ∧
  (get 61 "key" expiring).1 = (nil, false, false) ∧
  ("key" ∉ order (get 61 "key" expiring).2).
Proof.
  assert (lockstep expiring) as Hinv.
  { split; [vm_compute; reflexivity | apply NoDup_singleton]. }
  destruct (get_spec 61 "key" expiring) as (_ & _ & _ & _ & Hrm).
  destruct (Hrm (mkCacheEntry (Some "value") true 51))
    as (Hmiss & _ & _ & Hord); [vm_compute; reflexivity | done | done |].
  split_and!; [exact Hinv | exact Hmiss | by apply Hord].
Defined.

(** C5 as stated fails: with [NegativeTTL = 0] a call with [found = false]
    on a resident key returns at the guard; the old entry stays and the key
    keeps its place at the head of the order sequence. *)
Lemma set_existing_negative_untouched :
  is_Some (entries twoKeys !! "key1") ∧
  set 3 "key1" nil false twoKeys = twoKeys ∧
  order (set 3 "key1" nil false twoKeys) = ["key1"; "key2"] ∧
  ¬ refreshedBy 3 "key1" nil false twoKeys.
Proof.
  split_and!.
  - vm_compute. eauto.
  - reflexivity.
  - vm_compute. reflexivity.
  - intros [_ Hlast]. vm_compute in Hlast. discriminate.
Qed.

(** C5, amended.  When the key is resident and the call passes the guard
    ([found] is true or [NegativeTTL] is not 0), [set] replaces the entry
    and moves the key to the end of the order sequence.  Consequently, with
    [Size = 3] and distinct keys, after [set] calls for [k1], [k2], [k3],
    again [k1], then [k4], each passing the guard, the key [k2] is gone
    and [k1], [k3], [k4] are hits carrying what was stored last, for as
    long as their entries have not expired. *)
Theorem set_existing_refreshes {V} :
  (∀ now key (val : any V) fnd (c : Cache V) old,
     lockstep c → entries c !! key = Some old →
     fnd = true ∨ NegativeTTL (config c) ≠ 0 →
     ∃ pre post,
       order c = pre ++ key :: post ∧
       order (set now key val fnd c) = pre ++ post ++ [key] ∧
       entries (set now key val fnd c) =
         <[key := mkCacheEntry val fnd (expiryFor (config c) now fnd)]>
           (entries c)) ∧
  (∀ cfg k1 k2 k3 k4 (v1 v2 v3 v1' v4 : any V) f1 f2 f3 f1' f4
     t1 t2 t3 t1' t4 tg,
     Size cfg = 3 → NoDup [k1; k2; k3; k4] →
     (f1 = true ∨ NegativeTTL cfg ≠ 0) ∧ (f2 = true ∨ NegativeTTL cfg ≠ 0) ∧
     (f3 = true ∨ NegativeTTL cfg ≠ 0) ∧ (f1' = true ∨ NegativeTTL cfg ≠ 0) ∧
     (f4 = true ∨ NegativeTTL cfg ≠ 0) →
     (0 < (if f3 then TTL cfg else NegativeTTL cfg) →
      tg ≤ t3 + (if f3 then TTL cfg else NegativeTTL cfg)) →
     (0 < (if f1' then TTL cfg else NegativeTTL cfg) →
      tg ≤ t1' + (if f1' then TTL cfg else NegativeTTL cfg)) →
     (0 < (if f4 then TTL cfg else NegativeTTL cfg) →
      tg ≤ t4 + (if f4 then TTL cfg else NegativeTTL cfg)) →
     let c := refreshScenario cfg k1 k2 k3 k4 v1 v2 v3 v1' v4
                f1 f2 f3 f1' f4 t1 t2 t3 t1' t4 in
     order c = [k3; k1; k4] ∧
     entries c !! k2 = None ∧
     get tg k2 c = ((nil, false, false), c) ∧
     get tg k1 c = ((v1', f1', true), c) ∧
     get tg k3 c = ((v3, f3, true), c) ∧
     get tg k4 c = ((v4, f4, true), c)).
Proof.
  split.
  - intros now key val fnd c old Hinv Hk Hg.
    destruct (set_existing now key val fnd c old Hinv Hk Hg)
      as (pre & post & Hord & Hset).
    exists pre, post. by rewrite Hset.
  - intros cfg k1 k2 k3 k4 v1 v2 v3 v1' v4 f1 f2 f3 f1' f4
      t1 t2 t3 t1' t4 tg Hsz Hnd (Hg1 & Hg2 & Hg3 & Hg1' & Hg4)
      Hlive3 Hlive1 Hlive4 c.
    apply NoDup_cons in Hnd as [Hn1 Hnd].
    apply NoDup_cons in Hnd as [Hn2 Hnd].
    apply NoDup_cons in Hnd as [Hn3 _].
    apply not_elem_of_cons in Hn1 as (H12 & Hn1).
    apply not_elem_of_cons in Hn1 as (H13 & Hn1).
    apply not_elem_of_cons in Hn1 as (H14 & _).
    apply not_elem_of_cons in Hn2 as (H23 & Hn2).
    apply not_elem_of_cons in Hn2 as (H24 & _).
    apply not_elem_of_cons in Hn3 as (H34 & _).
    pose proof (NewCache_lockstep (V:=V) cfg) as L0.
    pose proof (set_new_room t1 k1 v1 f1 _ L0 (lookup_empty _) Hg1) as E1.
    simpl in E1. specialize (E1 ltac:(lia)).
    pose proof (set_lockstep t1 k1 v1 f1 _ L0) as L1. rewrite E1 in L1.
    pose proof (set_new_room t2 k2 v2 f2 _ L1) as E2. simpl in E2.
    rewrite lookup_insert_ne, lookup_empty in E2 by done.
    specialize (E2 eq_refl Hg2 ltac:(lia)).
    pose proof (set_lockstep t2 k2 v2 f2 _ L1) as L2. rewrite E2 in L2.
    pose proof (set_new_room t3 k3 v3 f3 _ L2) as E3. simpl in E3.
    rewrite !lookup_insert_ne, lookup_empty in E3 by done.
    specialize (E3 eq_refl Hg3 ltac:(lia)).
    pose proof (set_lockstep t3 k3 v3 f3 _ L2) as L3. rewrite E3 in L3.
    pose proof (set_existing_at t1' k1 v1' f1' _ [] [k2; k3] L3 eq_refl Hg1')
      as E4. simpl in E4.
    pose proof (set_lockstep t1' k1 v1' f1' _ L3) as L4. rewrite E4 in L4.
    pose proof (set_new_full t4 k4 v4 f4 _ k2 [k3; k1] L4) as E5. simpl in E5.
    rewrite !lookup_insert_ne, lookup_empty in E5 by done.
    specialize (E5 eq_refl Hg4 eq_refl ltac:(lia)).
    assert (c = set t4 k4 v4 f4
                  (set t1' k1 v1' f1'
                     (set t3 k3 v3 f3
                        (set t2 k2 v2 f2
                           (set t1 k1 v1 f1 (NewCache cfg)))))) as Hc
      by reflexivity.
    rewrite E1, E2, E3, E4, E5 in Hc. clear E1 E2 E3 E4 E5 L0 L1 L2 L3 L4.
    rewrite Hc. unfold get. simpl.
    rewrite lookup_insert_ne, lookup_delete_eq by done.
    rewrite (lookup_insert_ne _ k4 k1), (lookup_delete_ne _ k2 k1),
      lookup_insert_eq by done.
    rewrite (lookup_insert_ne _ k4 k3), (lookup_delete_ne _ k2 k3),
      (lookup_insert_ne _ k1 k3), lookup_insert_eq by done.
    rewrite lookup_insert_eq.
    rewrite !stamped_live by done.
    done.
Qed.

Lemma set_existing_refreshes_witness :
  Size cfgNeg = 3 ∧
  NoDup ["key1"; "key2"; "key3"; "key4"] ∧
  order (refreshScenario cfgNeg "key1" "key2" "key3" "key4"
           (Some "value1") nil (Some "value3") nil (Some "value4")
           true false true false true 1 2 3 4 5)
  = ["key3"; "key1"; "key4"] ∧
  get 6 "key1" (refreshScenario cfgNeg "key1" "key2" "key3" "key4"
           (Some "value1") nil (Some "value3") nil (Some "value4")
           true false true false true 1 2 3 4 5)
  = ((nil, false, true),
     refreshScenario cfgNeg "key1" "key2" "key3" "key4"
           (Some "value1") nil (Some "value3") nil (Some "value4")
           true false true false true 1 2 3 4 5).
Proof.
  assert (NoDup ["key1"; "key2"; "key3"; "key4"]) as Hnd.
  { repeat (apply NoDup_cons_2; [set_solver|]). apply NoDup_nil_2. }
  destruct (set_existing_refreshes (V:=string)) as [_ Hscen].
  destruct (Hscen cfgNeg "key1" "key2" "key3" "key4"
              (Some "value1") nil (Some "value3") nil (Some "value4")
              true false true false true 1 2 3 4 5 6)
    as (Hord & _ & _ & Hk1 & _);
    [reflexivity | exact Hnd
     | split_and!; (by left) || (by right)
     | simpl; lia | simpl; lia | simpl; lia |].
  split_and!; [reflexivity | exact Hnd | exact Hord | exact Hk1].
Defined.

(** C6 as stated fails: with [NegativeTTL = 0] the call [set(key, nil,
    false)] changes nothing, so a key that was a hit before it is still a
    hit after it. *)
Lemma set_negative_noop_then_hit :
  NegativeTTL (config oneKey) = 0 ∧
  set 2 "key1" nil false oneKey = oneKey ∧
  (get 3 "key1" (set 2 "key1" nil false oneKey)).1
    = (Some "value1", true, true) ∧
  (get 3 "key1" (set 2 "key1" nil false oneKey)).1 ≠ (nil, false, false).
Proof.
  split_and!; [reflexivity | reflexivity | vm_compute; reflexivity |].
  vm_compute. discriminate.
Qed.

(** C6, amended.  With [NegativeTTL = 0] the call [set(key, value, false)]
    returns the cache as it was: map, order sequence and configuration are
    unchanged.  A later [get(key)] therefore answers as it would have
    without the call; it is a miss when the key was not resident, or when
    its entry has expired by then. *)
Theorem set_negative_disabled_noop {V} (now : Time) (key : string)
    (val : any V) (c : Cache V) :
  NegativeTTL (config c) = 0 →
  set now key val false c = c ∧
  entries (set now key val false c) = entries c ∧
  order (set now key val false c) = order c ∧
  (∀ now', get now' key (set now key val false c) = get now' key c) ∧
  (∀ now', entries c !! key = None →
           get now' key (set now key val false c) = ((nil, false, false), c)) ∧
  (∀ now' e, entries c !! key = Some e →
             expiresAt e ≠ zeroTime → expiresAt e < now' →
             (get now' key (set now key val false c)).1 = (nil, false, false)).
Proof.
  intros H0. rewrite set_noop by done. split_and!; try done.
  - intros now' Hk. unfold get. by rewrite Hk.
  - intros now' e Hk Hz Hlt. unfold get. rewrite Hk.
    unfold isExpired, IsZero, After.
    rewrite bool_decide_eq_false_2, bool_decide_eq_true_2 by done. done.
Qed.

Lemma set_negative_disabled_noop_witness :
  NegativeTTL (config (NewCache (V:=string) cfgTTL)) = 0 ∧
  set 1 "missing" nil false (NewCache (V:=string) cfgTTL) = NewCache cfgTTL ∧
  get 2 "missing" (set 1 "missing" nil false (NewCache (V:=string) cfgTTL))
    = ((nil, false, false), NewCache cfgTTL).
Proof.
  destruct (set_negative_disabled_noop 1 "missing" nil
              (NewCache (V:=string) cfgTTL) eq_refl)
    as (Hset & _ & _ & _ & Hmiss & _).
  split_and!; [reflexivity | exact Hset | apply Hmiss; reflexivity].
Defined.

(** *** The decorator *)

(** C7 as stated fails.  No entry of these caches ever expires (both TTLs
    are 0), yet across two invocations with the same key the wrapped
    function runs twice when it finds nothing (negative caching is off),
    twice when it fails, and not at all when the key was resident
    before the first invocation. *)
Lemma decorator_lookup_not_once :
  Enabled (config (NewCache (V:=string) cfg3)) = true ∧
  (twoCalls (WrapWithCache (Some (NewCache cfg3)) (counted notFoundFn))
     tt "missing" clkA clkB (NewCache cfg3, (tt, 0%nat))).2.2.2 = 2%nat ∧
  (twoCalls (WrapWithCache (Some (NewCache cfg3)) (counted failingFn))
     tt "key1" clkA clkB (NewCache cfg3, (tt, 0%nat))).2.2.2 = 2%nat ∧
  (twoCalls (WrapWithCache (Some oneKey) (counted baseFn))
     tt "key1" clkA clkB (oneKey, (tt, 0%nat))).2.2.2 = 0%nat.
Proof. split_and!; vm_compute; reflexivity. Qed.

(** C7, amended.  With an enabled cache, if the first invocation is a miss,
    the wrapped function returns without error a result that [set] stores
    ([found] is true, or [NegativeTTL] is not 0), and the stored entry has
    not expired when the second invocation reads it, then across the two
    invocations the wrapped function runs exactly once, the second
    invocation leaves the world as the first left it, and both return the
    same [(value, found, nil)]. *)
Theorem decorator_memoizes {V E Ctx W} (fn : LookupFunc V E Ctx W)
    (ctx : Ctx) (key : string) (clk1 clk2 : Clock) (c : Cache V)
    (w w' : W) (n : nat) (v : any V) (f : bool) :
  Enabled (config c) = true →
  (get (atGet clk1) key c).1.2 = false →
  fn ctx key w = ((v, f, None), w') →
  f = true ∨ NegativeTTL (config c) ≠ 0 →
  (0 < (if f then TTL (config c) else NegativeTTL (config c)) →
   atGet clk2 ≤ atSet clk1 + (if f then TTL (config c) else NegativeTTL (config c))) →
  twoCalls (WrapWithCache (Some c) (counted fn)) ctx key clk1 clk2 (c, (w, n))
  = ((v, f, None), (v, f, None),
     (set (atSet clk1) key v f (get (atGet clk1) key c).2, (w', S n))).
Proof.
  intros Hen Hmiss Hfn Hg Hlive.
  rewrite WrapWithCache_enabled by done. unfold twoCalls.
  rewrite cachedLookup_miss by done. simpl. rewrite Hfn.
  pose proof (get_config (atGet clk1) key c) as Hcfg.
  rewrite (cachedLookup_hit _ _ _ _ _ _
             (mkCacheEntry v f (expiryFor (config c) (atSet clk1) f))).
  - reflexivity.
  - rewrite <- Hcfg at 1. apply set_lookup. by rewrite Hcfg.
  - by apply stamped_live.
Qed.

Lemma decorator_memoizes_witness :
  twoCalls (WrapWithCache (Some (NewCache cfgTTL)) (counted baseFn))
    tt "key1" (mkClock 10 11) (mkClock 61 62) (NewCache cfgTTL, (tt, 0%nat))
  = ((Some "value-key1", true, None), (Some "value-key1", true, None),
     (set 11 "key1" (Some "value-key1") true (NewCache cfgTTL), (tt, 1%nat))).
Proof.
  apply (decorator_memoizes baseFn tt "key1" (mkClock 10 11) (mkClock 61 62)
           (NewCache cfgTTL) tt tt 0 (Some "value-key1") true);
    [reflexivity | reflexivity | reflexivity | by left | simpl; lia].
Defined.




(** C9.  The wrapped function runs only on a miss; when it then returns
    [(v, f, e)] with an error [e], the decorated function returns
    [(nil, false, e)]: [v] and [f] are dropped. *)
Theorem decorator_error_discards_result {V E Ctx W} (fn : LookupFunc V E Ctx W)
    (ctx : Ctx) (key : string) (clk : Clock) (c : Cache V)
    (w w1 : W) (v : any V) (f : bool) (e : E) :
  Enabled (config c) = true →
  (get (atGet clk) key c).1.2 = false →
  fn ctx key w = ((v, f, Some e), w1) →
  (WrapWithCache (Some c) fn ctx key clk (c, w)).1 = (nil, false, Some e).
Proof.
  intros Hen Hmiss Hfn.
  rewrite WrapWithCache_enabled, cachedLookup_miss by done.
  simpl. by rewrite Hfn.
Qed.

Lemma decorator_error_discards_result_witness :
  failingFn tt "key1" tt = ((Some "partial", true, Some "timeout"), tt) ∧
  (WrapWithCache (Some (NewCache cfg3)) failingFn tt "key1" clkA
     (NewCache cfg3, tt)).1 = (nil, false, Some "timeout").
Proof.
  split; [reflexivity|].
  apply (decorator_error_discards_result failingFn tt "key1" clkA
           (NewCache cfg3) tt tt (Some "partial") true "timeout");
    reflexivity.
Defined.

(** ** Further properties of the cache engine *)

Section engine_facts.
Context {V : Type}.
Implicit Types (c : Cache V) (key k oldest : string) (val : any V).

Lemma Clear_config c : config (Clear c) = config c.
Proof. done. Qed.

Lemma get_engine_config now key c : config (get now key c).2 = config c.
Proof.
  unfold get. destruct (entries c !! key) as [e|]; [|done].
  destruct (isExpired now e); [|done]. simpl.
  unfold removeEntryLocked. by destruct (rangeFind key (order c)).
Qed.

(** [get] never adds an entry. *)
Lemma get_size_le now key c : Cache_Size (get now key c).2 ≤ Cache_Size c.
Proof.
  unfold Cache_Size, get. destruct (entries c !! key) as [e|] eqn:Hk; [|done].
  destruct (isExpired now e); [|done]. simpl.
  rewrite removeEntryLocked_entries, map_size_delete, Hk. simpl. lia.
Qed.

Lemma applyOp_config c (op : Op V) : config (applyOp c op) = config c.
Proof.
  destruct op; simpl;
    [apply set_config | apply get_engine_config | apply Clear_config].
Qed.

Lemma applyOp_lockstep c (op : Op V) : lockstep c → lockstep (applyOp c op).
Proof.
  intros Hinv. destruct op; simpl;
    [by apply set_lockstep | by apply get_lockstep | apply Clear_lockstep].
Qed.

Lemma applyOp_capacity c (op : Op V) :
  lockstep c → 0 < Size (config c) → Cache_Size c ≤ Size (config c) →
  Cache_Size (applyOp c op) ≤ Size (config c).
Proof.
  intros Hinv Hpos Hle. destruct op; simpl.
  - by apply set_capacity.
  - pose proof (get_size_le now key c). lia.
  - unfold Cache_Size. simpl. rewrite map_size_empty. lia.
Qed.

(** With a [Size] that is not positive one [set] leaves at most one
    entry when there was at most one. *)
Lemma set_nonpositive_le_one now key val fnd c :
  lockstep c → Size (config c) ≤ 0 → Cache_Size c ≤ 1 →
  Cache_Size (set now key val fnd c) ≤ 1.
Proof.
  intros Hinv Hsz Hle.
  destruct (decide (cacheable (config c) fnd)) as [Hg|Hg].
  - destruct (entries c !! key) as [old|] eqn:Hk.
    + destruct (set_existing now key val fnd c old Hinv Hk Hg)
        as (pre & post & _ & ->).
      unfold Cache_Size in *. simpl.
      rewrite map_size_insert_Some by eauto. done.
    + rewrite set_nonpositive_size by done.
      unfold Cache_Size. simpl. by rewrite map_size_singleton.
  - unfold set. unfold cacheable in Hg.
    destruct fnd; [by destruct Hg; left|]. simpl.
    case_bool_decide; [done|]. destruct Hg. by right.
Qed.

Lemma runOps_invariant (ops : list (Op V)) c :
  lockstep c →
  lockstep (runOps ops c) ∧
  config (runOps ops c) = config c ∧
  (0 < Size (config c) → Cache_Size c ≤ Size (config c) →
   Cache_Size (runOps ops c) ≤ Size (config c)) ∧
  (Size (config c) ≤ 0 → Cache_Size c ≤ 1 → Cache_Size (runOps ops c) ≤ 1).
Proof.
  revert c. induction ops as [|op ops IH]; intros c Hinv; simpl; [done|].
  destruct (IH (applyOp c op) (applyOp_lockstep _ _ Hinv))
    as (Hl & Hc & Hpos & Hnon).
  rewrite applyOp_config in Hc, Hpos, Hnon.
  split_and!; [done | done | |].
  - intros H0 Hle. apply Hpos; [done|]. by apply applyOp_capacity.
  - intros H0 Hle. apply Hnon; [done|]. destruct op; simpl.
    + by apply set_nonpositive_le_one.
    + pose proof (get_size_le now key c). lia.
    + unfold Cache_Size. simpl. rewrite map_size_empty. lia.
Qed.

End engine_facts.

(** X1.  In every state reached from [NewCache cfg] by [set], [get] and
    [Clear] calls in any order, the map and the order sequence are in
    lockstep, the configuration is still [cfg], [Size()] is the length of
    the order sequence, and for a positive [Size] it is at most [Size]. *)
Theorem reachable_invariant {V} (cfg : CacheConfig) (ops : list (Op V)) :
  lockstep (runOps ops (NewCache cfg)) ∧
  config (runOps ops (NewCache cfg)) = cfg ∧
  Cache_Size (runOps ops (NewCache cfg))
    = Z.of_nat (length (order (runOps ops (NewCache cfg)))) ∧
  (0 < Size cfg → Cache_Size (runOps ops (NewCache cfg)) ≤ Size cfg).
Proof.
  destruct (runOps_invariant ops (NewCache (V:=V) cfg) (NewCache_lockstep cfg))
    as (Hl & Hc & Hpos & _).
  split_and!; [done | done | |].
  - unfold Cache_Size. by rewrite (lockstep_size _ _ Hl).
  - intros H0. apply Hpos; [done|].
    unfold Cache_Size. simpl. rewrite map_size_empty. lia.
Qed.

Lemma reachable_invariant_witness :
  0 < Size cfg3 ∧
  Cache_Size
    (runOps [OpSet 1 "key1" (Some "value1") true; OpGet 2 "key1";
             OpSet 3 "key2" (Some "value2") true; OpClear;
             OpSet 4 "key3" nil false]
       (NewCache cfg3)) ≤ Size cfg3.
Proof.
  split; [done|].
  by apply (reachable_invariant (V:=string) cfg3
              [OpSet 1 "key1" (Some "value1") true; OpGet 2 "key1";
               OpSet 3 "key2" (Some "value2") true; OpClear;
               OpSet 4 "key3" nil false]).
Defined.

(** X2.  When [Size] is zero or negative, a cache built by [NewCache] never
    holds more than one entry, whatever calls are made on it. *)
Theorem nonpositive_size_holds_one {V} (cfg : CacheConfig) (ops : list (Op V)) :
  Size cfg ≤ 0 → Cache_Size (runOps ops (NewCache cfg)) ≤ 1.
Proof.
  intros Hsz.
  destruct (runOps_invariant ops (NewCache (V:=V) cfg) (NewCache_lockstep cfg))
    as (_ & _ & _ & Hnon).
  apply Hnon; [done|]. unfold Cache_Size. simpl. rewrite map_size_empty. lia.
Qed.

Lemma nonpositive_size_holds_one_witness :
  Size cfg0 ≤ 0 ∧
  Cache_Size
    (runOps [OpSet 1 "a" (Some "1") true; OpSet 2 "b" (Some "2") true;
             OpSet 3 "c" (Some "3") true]
       (NewCache cfg0)) ≤ 1.
Proof.
  split; [done|]. by apply nonpositive_size_holds_one.
Defined.

(** X3.  A [set] that passes the guard followed by a [get] of the same key
    no later than the expiry instant returns the stored value and flag as
    a hit, and that [get] leaves the cache as [set] left it. *)
Theorem set_then_get_hits {V} (now tg : Time) (key : string) (val : any V)
    (fnd : bool) (c : Cache V) :
  fnd = true ∨ NegativeTTL (config c) ≠ 0 →
  (0 < (if fnd then TTL (config c) else NegativeTTL (config c)) →
   tg ≤ now + (if fnd then TTL (config c) else NegativeTTL (config c))) →
  get tg key (set now key val fnd c)
  = ((val, fnd, true), set now key val fnd c).
Proof.
  intros Hg Hlive.
  rewrite (get_live tg key _
             (mkCacheEntry val fnd (expiryFor (config c) now fnd))).
  - done.
  - by apply set_lookup.
  - by apply stamped_live.
Qed.

Lemma set_then_get_hits_witness :
  get 51 "key" (set 1 "key" (Some "value") true (NewCache cfgTTL))
  = ((Some "value", true, true),
     set 1 "key" (Some "value") true (NewCache cfgTTL)).
Proof.
  apply set_then_get_hits; [by left | simpl; lia].
Defined.

(** X4.  An entry stored with a positive time-to-live at a clock reading
    that is not before the zero time is a miss for every [get] after its
    expiry instant; that [get] deletes it, so the key stays a miss at any
    later reading, also an earlier one. *)
Theorem expired_entry_is_purged {V} (now tg : Time) (key : string)
    (val : any V) (fnd : bool) (c : Cache V) :
  fnd = true ∨ NegativeTTL (config c) ≠ 0 →
  0 ≤ now →
  0 < (if fnd then TTL (config c) else NegativeTTL (config c)) →
  now + (if fnd then TTL (config c) else NegativeTTL (config c)) < tg →
  (get tg key (set now key val fnd c)).1 = (nil, false, false) ∧
  entries (get tg key (set now key val fnd c)).2 !! key = None ∧
  (∀ tg', (get tg' key (get tg key (set now key val fnd c)).2).1
          = (nil, false, false)).
Proof.
  intros Hg Hnow Hpos Hlate.
  pose proof (set_lookup now key val fnd c Hg) as Hk.
  assert (isExpired tg (mkCacheEntry val fnd (expiryFor (config c) now fnd))
          = true) as Hexp.
  { unfold isExpired, expiryFor, IsZero, After, Add, zeroTime. simpl.
    destruct fnd; repeat case_bool_decide; try done; lia. }
  assert ((get tg key (set now key val fnd c)).1.2 = false) as Hmiss.
  { unfold get. by rewrite Hk, Hexp. }
  split_and!.
  - by apply get_miss_result.
  - by apply get_miss_absent.
  - intros tg'. by rewrite get_absent by (by apply get_miss_absent).
Qed.

Lemma expired_entry_is_purged_witness :
  (get 61 "key" (set 1 "key" (Some "value") true (NewCache cfgTTL))).1
  = (nil, false, false).
Proof.
  destruct (expired_entry_is_purged 1 61 "key" (Some "value") true
              (NewCache cfgTTL)) as (Hmiss & _);
    [by left | done | done | simpl; lia | exact Hmiss].
Defined.

(** X5.  A time-to-live that is zero or negative means no expiry: the
    stored entry is a hit at every clock reading. *)
Theorem nonpositive_ttl_never_expires {V} (now : Time) (key : string)
    (val : any V) (fnd : bool) (c : Cache V) :
  fnd = true ∨ NegativeTTL (config c) ≠ 0 →
  (if fnd then TTL (config c) else NegativeTTL (config c)) ≤ 0 →
  ∀ tg, (get tg key (set now key val fnd c)).1 = (val, fnd, true).
Proof.
  intros Hg Hle tg.
  rewrite (get_live tg key _
             (mkCacheEntry val fnd (expiryFor (config c) now fnd))).
  - done.
  - by apply set_lookup.
  - apply stamped_live. lia.
Qed.

Lemma nonpositive_ttl_never_expires_witness :
  (get 1000000 "missing"
     (set 1 "missing" nil false (NewCache (mkCacheConfig true 10 0 (-5))))).1
  = (nil (V:=string), false, true).
Proof.
  apply (nonpositive_ttl_never_expires 1 "missing" nil false
           (NewCache (mkCacheConfig true 10 0 (-5))));
    [by right | simpl; lia].
Defined.

Section eviction_facts.
Context {V : Type}.
Implicit Types (c : Cache V) (key k oldest : string) (val : any V).

(** Whatever [set] stores, the key ends up last in the order sequence. *)
Lemma set_order_last now key val fnd c :
  lockstep c → cacheable (config c) fnd →
  ∃ pre, order (set now key val fnd c) = pre ++ [key].
Proof.
  intros Hinv Hg. destruct (entries c !! key) as [old|] eqn:Hk.
  - destruct (set_existing now key val fnd c old Hinv Hk Hg)
      as (pre & post & _ & ->).
    exists (pre ++ post). simpl. by rewrite <- app_assoc.
  - unfold set. rewrite guard_false, Hk by done.
    destruct (evict _ _ _) as [ents ord]. by exists ord.
Qed.

(** A [set] stopped by the guard returns the cache as it is. *)
Lemma set_guarded now key val fnd c :
  ¬ cacheable (config c) fnd → set now key val fnd c = c.
Proof.
  intros Hg. unfold set. unfold cacheable in Hg.
  destruct fnd; [by destruct Hg; left|]. simpl.
  case_bool_decide; [done|]. destruct Hg. by right.
Qed.

(** Taking the first occurrence of a key out keeps every other key in
    its place relative to the others. *)
Lemma cutAt_filter key (ord : list string) i :
  rangeFind key ord = Some i →
  filter (λ k, k ≠ key) (cutAt i ord) = filter (λ k, k ≠ key) ord.
Proof.
  intros Hr. apply rangeFind_Some in Hr as [Heq _].
  unfold cutAt. rewrite Heq at 3.
  rewrite !filter_app, filter_cons_False; [done|]. by intros [].
Qed.

End eviction_facts.

(** X6.  Inserting a new key into a full cache ([Size] entries resident)
    evicts the head of the order sequence and nothing else: the head has
    no entry afterwards, every other resident key keeps its entry, the
    new key is last in the order, and [Size()] is still [Size]. *)
Theorem insert_when_full_evicts_head {V} (now : Time) (key oldest : string)
    (rest : list string) (val : any V) (fnd : bool) (c : Cache V) :
  lockstep c →
  order c = oldest :: rest →
  Z.of_nat (length (order c)) = Size (config c) →
  entries c !! key = None →
  fnd = true ∨ NegativeTTL (config c) ≠ 0 →
  entries (set now key val fnd c) !! oldest = None ∧
  (∀ k, k ≠ oldest → k ≠ key →
        entries (set now key val fnd c) !! k = entries c !! k) ∧
  order (set now key val fnd c) = rest ++ [key] ∧
  Cache_Size (set now key val fnd c) = Size (config c).
Proof.
  intros Hinv Hord Hlen Hk Hg.
  assert (is_Some (entries c !! oldest)) as [eo Heo].
  { apply (lockstep_lookup _ _ _ Hinv). rewrite Hord. left. }
  assert (oldest ≠ key) as Hne by (intros ->; congruence).
  pose proof (lockstep_size _ _ Hinv) as Hsz.
  rewrite (set_new_full now key val fnd c oldest rest) by done.
  unfold Cache_Size. simpl. split_and!.
  - rewrite lookup_insert_ne by done. apply lookup_delete_eq.
  - intros k Hk1 Hk2. by rewrite lookup_insert_ne, lookup_delete_ne.
  - done.
  - rewrite map_size_insert_None
      by (rewrite lookup_delete_ne by done; exact Hk).
    rewrite map_size_delete_Some by eauto.
    rewrite Hord in Hlen. simpl in Hlen. rewrite Hord in Hsz. simpl in Hsz.
    lia.
Qed.

Lemma insert_when_full_evicts_head_witness :
  entries (set 3 "key3" (Some "value3") true
             (runSets [(1, "key1", Some "value1", true);
                       (2, "key2", Some "value2", true)]
                (NewCache (mkCacheConfig true 2 0 0)))) !! "key1" = None.
Proof.
  assert (lockstep (runSets [(1, "key1", Some "value1", true);
                             (2, "key2", Some "value2", true)]
                      (NewCache (V:=string) (mkCacheConfig true 2 0 0))))
    as Hinv.
  { split; [vm_compute; reflexivity|].
    repeat (apply NoDup_cons_2; [set_solver|]). apply NoDup_nil_2. }
  destruct (insert_when_full_evicts_head 3 "key3" "key1" ["key2"]
              (Some "value3") true _ Hinv) as (Hgone & _);
    [reflexivity | reflexivity | reflexivity | by left | exact Hgone].
Defined.

(** X7.  Inserting a new key while fewer than [Size] entries are resident
    evicts nothing: every resident key keeps its entry, the new key is
    appended to the order, and [Size()] grows by one. *)
Theorem insert_with_room_keeps_all {V} (now : Time) (key : string)
    (val : any V) (fnd : bool) (c : Cache V) :
  lockstep c →
  Z.of_nat (length (order c)) < Size (config c) →
  entries c !! key = None →
  fnd = true ∨ NegativeTTL (config c) ≠ 0 →
  (∀ k, k ≠ key → entries (set now key val fnd c) !! k = entries c !! k) ∧
  order (set now key val fnd c) = order c ++ [key] ∧
  Cache_Size (set now key val fnd c) = Cache_Size c + 1.
Proof.
  intros Hinv Hlen Hk Hg.
  rewrite set_new_room by done. unfold Cache_Size. simpl. split_and!.
  - intros k Hne. by rewrite lookup_insert_ne.
  - done.
  - rewrite map_size_insert_None by done. lia.
Qed.

Lemma insert_with_room_keeps_all_witness :
  order (set 2 "key2" (Some "value2") true oneKey) = ["key1"; "key2"].
Proof.
  assert (lockstep oneKey) as Hinv.
  { split; [vm_compute; reflexivity | apply NoDup_singleton]. }
  destruct (insert_with_room_keeps_all 2 "key2" (Some "value2") true
              oneKey Hinv) as (_ & Hord & _);
    [vm_compute; reflexivity | reflexivity | by left | exact Hord].
Defined.

(** X8.  A [get] does not refresh recency.  In a full cache a hit on the
    key at the head of the order sequence leaves the cache as it was, so
    the next insertion of a new key still evicts that key. *)
Theorem get_does_not_refresh {V} (tg now : Time) (key oldest : string)
    (rest : list string) (val : any V) (fnd : bool) (c : Cache V) :
  lockstep c →
  order c = oldest :: rest →
  Z.of_nat (length (order c)) = Size (config c) →
  (get tg oldest c).1.2 = true →
  entries c !! key = None →
  fnd = true ∨ NegativeTTL (config c) ≠ 0 →
  (get tg oldest c).2 = c ∧
  entries (set now key val fnd (get tg oldest c).2) !! oldest = None ∧
  ∀ tg', (get tg' oldest (set now key val fnd (get tg oldest c).2)).1
         = (nil, false, false).
Proof.
  intros Hinv Hord Hlen Hhit Hk Hg.
  assert ((get tg oldest c).2 = c) as Hsame.
  { unfold get in *. destruct (entries c !! oldest) as [e|]; [|done].
    by destruct (isExpired tg e). }
  rewrite Hsame.
  assert (entries (set now key val fnd c) !! oldest = None) as Hgone.
  { assert (oldest ≠ key) as Hne.
    { intros ->. unfold get in Hhit. by rewrite Hk in Hhit. }
    rewrite (set_new_full now key val fnd c oldest rest) by done. simpl.
    rewrite lookup_insert_ne by done. apply lookup_delete_eq. }
  split_and!; [done | done |].
  intros tg'. by rewrite get_absent.
Qed.

Lemma get_does_not_refresh_witness :
  (get 9 "key1"
     (set 4 "key3" (Some "value3") true
        (get 3 "key1"
           (runSets [(1, "key1", Some "value1", true);
                     (2, "key2", Some "value2", true)]
              (NewCache (mkCacheConfig true 2 0 0)))).2)).1
  = (nil, false, false).
Proof.
  assert (lockstep (runSets [(1, "key1", Some "value1", true);
                             (2, "key2", Some "value2", true)]
                      (NewCache (V:=string) (mkCacheConfig true 2 0 0))))
    as Hinv.
  { split; [vm_compute; reflexivity|].
    repeat (apply NoDup_cons_2; [set_solver|]). apply NoDup_nil_2. }
  destruct (get_does_not_refresh 3 4 "key3" "key1" ["key2"]
              (Some "value3") true _ Hinv) as (_ & _ & Hmiss);
    [reflexivity | reflexivity | reflexivity | reflexivity | by left |].
  apply Hmiss.
Defined.

(** X9.  Repeating a [set] with the same arguments and the same clock
    reading changes nothing more: the second call leaves the cache as the
    first left it. *)
Theorem set_twice_same {V} (now : Time) (key : string) (val : any V)
    (fnd : bool) (c : Cache V) :
  lockstep c →
  set now key val fnd (set now key val fnd c) = set now key val fnd c.
Proof.
  intros Hinv.
  destruct (decide (cacheable (config c) fnd)) as [Hg|Hg].
  - pose proof (set_lockstep now key val fnd c Hinv) as Hinv1.
    pose proof (set_config now key val fnd c) as Hcfg.
    pose proof (set_lookup now key val fnd c Hg) as Hk1.
    destruct (set_order_last now key val fnd c Hinv Hg) as [pre Hord1].
    rewrite (set_existing_at now key val fnd (set now key val fnd c) pre [])
      by (rewrite ?Hcfg; done).
    rewrite Hcfg, insert_id by done.
    destruct (set now key val fnd c) as [cfg1 ents1 ord1]. simpl in *.
    by rewrite Hcfg, Hord1.
  - by rewrite !(set_guarded now key val fnd c Hg).
Qed.

Lemma set_twice_same_witness :
  set 5 "key1" (Some "again") true (set 5 "key1" (Some "again") true twoKeys)
  = set 5 "key1" (Some "again") true twoKeys.
Proof.
  apply set_twice_same.
  split; [vm_compute; reflexivity|].
  repeat (apply NoDup_cons_2; [set_solver|]). apply NoDup_nil_2.
Defined.

(** X10.  A [get] of one key never disturbs the others: their entries are
    the same afterwards, they keep their order relative to each other,
    and the number of resident entries does not grow. *)
Theorem get_leaves_other_keys {V} (now : Time) (key : string) (c : Cache V) :
  (∀ k, k ≠ key → entries (get now key c).2 !! k = entries c !! k) ∧
  filter (λ k, k ≠ key) (order (get now key c).2)
    = filter (λ k, k ≠ key) (order c) ∧
  Cache_Size (get now key c).2 ≤ Cache_Size c.
Proof.
  split_and!.
  - intros k Hne. by apply get_other.
  - unfold get. destruct (entries c !! key) as [e|]; [|done].
    destruct (isExpired now e); [|done]. simpl.
    unfold removeEntryLocked.
    destruct (rangeFind key (order c)) as [i|] eqn:Hr; [|done].
    simpl. by apply cutAt_filter.
  - apply get_size_le.
Qed.

Lemma get_leaves_other_keys_witness :
  entries (get 61 "key1" twoKeys).2 !! "key2" = entries twoKeys !! "key2".
Proof.
  destruct (get_leaves_other_keys 61 "key1" twoKeys) as (Hother & _).
  by apply Hother.
Defined.

(** ** Further properties of the decorator *)

Section wrapper_facts.
Context {V E Ctx W : Type}.
Implicit Types (c : Cache V) (fn : LookupFunc V E Ctx W) (key : string).

(** The cache the closure leaves behind: what [get] left on a hit or on
    an error, what [set] made of it otherwise. *)
Lemma cachedLookup_cache fn ctx key clk c w :
  (cachedLookup fn ctx key clk (c, w)).2.1 = (get (atGet clk) key c).2 ∨
  ∃ val fnd,
    (cachedLookup fn ctx key clk (c, w)).2.1
    = set (atSet clk) key val fnd (get (atGet clk) key c).2.
Proof.
  unfold cachedLookup.
  destruct (get (atGet clk) key c) as [[[gv gf] [|]] c1]; simpl; [by left|].
  destruct (fn ctx key w) as [[[v f] [e|]] w1]; simpl; [by left|].
  right. by exists v, f.
Qed.

Lemma bypass_state fn ctx key clk c w :
  (bypass fn ctx key clk (c, w)).2.1 = c.
Proof. unfold bypass. by destruct (fn ctx key w). Qed.

Lemma runCalls_bypass (fn : LookupFunc V E Ctx W) ctx
    (calls : list (string * Clock)) c w (n : nat) :
  (runCalls (bypass (counted fn)) ctx calls (c, (w, n))).1 = c ∧
  (runCalls (bypass (counted fn)) ctx calls (c, (w, n))).2.2
    = (n + length calls)%nat.
Proof.
  revert w n. induction calls as [|[key clk] calls IH]; intros w n.
  - simpl. split; [done | lia].
  - assert ((bypass (counted fn) ctx key clk (c, (w, n))).2
            = (c, ((fn ctx key w).2, S n))) as Hstep.
    { unfold bypass, counted. by destruct (fn ctx key w). }
    unfold runCalls in *. cbn [foldl fst snd]. rewrite Hstep.
    destruct (IH (fn ctx key w).2 (S n)) as [Hc Hn].
    split; [done|]. rewrite Hn. simpl. lia.
Qed.

End wrapper_facts.

(** X11.  The decorated function adds no error of its own: when it returns
    an error, the call was a cache miss and the wrapped function, run on
    that call, returned this very error. *)
Theorem decorator_error_comes_from_lookup {V E Ctx W}
    (fn : LookupFunc V E Ctx W) (ctx : Ctx) (key : string) (clk : Clock)
    (c : Cache V) (w : W) (e : E) :
  Enabled (config c) = true →
  (WrapWithCache (Some c) fn ctx key clk (c, w)).1.2 = Some e →
  (get (atGet clk) key c).1.2 = false ∧
  ∃ v f w1, fn ctx key w = ((v, f, Some e), w1).
Proof.
  intros Hen. rewrite WrapWithCache_enabled by done. unfold cachedLookup.
  destruct (get (atGet clk) key c) as [[[gv gf] [|]] c1]; simpl; [done|].
  destruct (fn ctx key w) as [[[v f] [e'|]] w1]; simpl; [|done].
  intros [= ->]. split; [done|]. by exists v, f, w1.
Qed.

Lemma decorator_error_comes_from_lookup_witness :
  ∃ v f w1, failingFn tt "key1" tt = ((v, f, Some "timeout"), w1).
Proof.
  destruct (decorator_error_comes_from_lookup failingFn tt "key1" clkA
              (NewCache cfg3) tt "timeout") as (_ & Hfn);
    [reflexivity | reflexivity | exact Hfn].
Defined.

(** X12.  A decorated call, through the cache or bypassing it, keeps the
    cache in lockstep and its configuration unchanged, and never leaves
    more than [Size] entries when [Size] is positive and was respected
    before. *)
Theorem decorator_keeps_invariant {V E Ctx W} (cache : option (Cache V))
    (fn : LookupFunc V E Ctx W) (ctx : Ctx) (key : string) (clk : Clock)
    (c : Cache V) (w : W) :
  lockstep c →
  lockstep (WrapWithCache cache fn ctx key clk (c, w)).2.1 ∧
  config (WrapWithCache cache fn ctx key clk (c, w)).2.1 = config c ∧
  (0 < Size (config c) → Cache_Size c ≤ Size (config c) →
   Cache_Size (WrapWithCache cache fn ctx key clk (c, w)).2.1
     ≤ Size (config c)).
Proof.
  intros Hinv.
  assert (∀ f : CachedFunc V E Ctx W,
            f = bypass fn ∨ f = cachedLookup fn →
            lockstep (f ctx key clk (c, w)).2.1 ∧
            config (f ctx key clk (c, w)).2.1 = config c ∧
            (0 < Size (config c) → Cache_Size c ≤ Size (config c) →
             Cache_Size (f ctx key clk (c, w)).2.1 ≤ Size (config c)))
    as Hboth.
  { intros f [-> | ->].
    - by rewrite bypass_state.
    - pose proof (get_lockstep (atGet clk) key c Hinv) as Hl1.
      pose proof (get_engine_config (atGet clk) key c) as Hc1.
      pose proof (get_size_le (atGet clk) key c) as Hs1.
      destruct (cachedLookup_cache fn ctx key clk c w)
        as [-> | (val & fnd & ->)].
      + split_and!; [done | done | lia].
      + split_and!.
        * by apply set_lockstep.
        * by rewrite set_config.
        * intros Hpos Hle. rewrite <- Hc1.
          apply set_capacity; [done | by rewrite Hc1 | rewrite Hc1; lia]. }
  apply Hboth. unfold WrapWithCache.
  destruct cache as [c0|]; [|by left].
  destruct (negb (Enabled (config c0))); [by left | by right].
Qed.

Lemma decorator_keeps_invariant_witness :
  lockstep (WrapWithCache (Some oneKey) baseFn tt "key2" clkA (oneKey, tt)).2.1.
Proof.
  apply (decorator_keeps_invariant (Some oneKey) baseFn tt "key2" clkA
           oneKey tt).
  split; [vm_compute; reflexivity | apply NoDup_singleton].
Defined.

(** X13.  With an enabled cache one decorated call runs the wrapped
    function once on a miss and not at all on a hit; on a hit the world is
    left as it was. *)
Theorem decorator_runs_lookup_iff_miss {V E Ctx W}
    (fn : LookupFunc V E Ctx W) (ctx : Ctx) (key : string) (clk : Clock)
    (c : Cache V) (w : W) (n : nat) :
  Enabled (config c) = true →
  (WrapWithCache (Some c) (counted fn) ctx key clk (c, (w, n))).2.2.2
    = (if (get (atGet clk) key c).1.2 then n else S n) ∧
  ((get (atGet clk) key c).1.2 = true →
   (WrapWithCache (Some c) (counted fn) ctx key clk (c, (w, n))).2.2 = (w, n)).
Proof.
  intros Hen. rewrite WrapWithCache_enabled by done. unfold cachedLookup.
  destruct (get (atGet clk) key c) as [[[gv gf] [|]] c1]; simpl; [done|].
  unfold counted. destruct (fn ctx key w) as [[[v f] [e|]] w1]; simpl; done.
Qed.

Lemma decorator_runs_lookup_iff_miss_witness :
  (WrapWithCache (Some oneKey) (counted baseFn) tt "key1" clkA
     (oneKey, (tt, 7%nat))).2.2.2 = 7%nat ∧
  (WrapWithCache (Some oneKey) (counted baseFn) tt "key2" clkA
     (oneKey, (tt, 7%nat))).2.2.2 = 8%nat.
Proof.
  split.
  - by destruct (decorator_runs_lookup_iff_miss baseFn tt "key1" clkA oneKey
                   tt 7 eq_refl) as [-> _].
  - by destruct (decorator_runs_lookup_iff_miss baseFn tt "key2" clkA oneKey
                   tt 7 eq_refl) as [-> _].
Defined.

(** X14.  With a nil cache or a cache whose [Enabled] flag is off, every
    decorated call runs the wrapped function, whatever the keys, and the
    cache object is never touched. *)
Theorem disabled_cache_always_looks_up {V E Ctx W} (cache : option (Cache V))
    (fn : LookupFunc V E Ctx W) (ctx : Ctx) (calls : list (string * Clock))
    (c : Cache V) (w : W) (n : nat) :
  cache = None ∨ (∃ c0, cache = Some c0 ∧ Enabled (config c0) = false) →
  (runCalls (WrapWithCache cache (counted fn)) ctx calls (c, (w, n))).1 = c ∧
  (runCalls (WrapWithCache cache (counted fn)) ctx calls (c, (w, n))).2.2
    = (n + length calls)%nat.
Proof.
  intros Hoff. rewrite WrapWithCache_bypass by done. apply runCalls_bypass.
Qed.

Lemma disabled_cache_always_looks_up_witness :
  (runCalls (WrapWithCache (Some (NewCache (mkCacheConfig false 0 0 0)))
               (counted baseFn)) tt
     [("key1", clkA); ("key1", clkA); ("key1", clkB)]
     (NewCache (mkCacheConfig false 0 0 0), (tt, 0%nat))).2.2 = 3%nat.
Proof.
  destruct (disabled_cache_always_looks_up
              (Some (NewCache (mkCacheConfig false 0 0 0))) baseFn tt
              [("key1", clkA); ("key1", clkA); ("key1", clkB)]
              (NewCache (mkCacheConfig false 0 0 0)) tt 0) as [_ Hn].
  - right. by eexists.
  - exact Hn.
Defined.

(** X15.  Refreshing an expired key evicts nobody.  When the key's entry
    has expired and the wrapped function returns a result that [set]
    stores, the decorated call replaces the entry with a fresh one and
    every other resident key keeps its entry, even in a full cache. *)
Theorem expired_refresh_evicts_nothing {V E Ctx W}
    (fn : LookupFunc V E Ctx W) (ctx : Ctx) (key : string) (clk : Clock)
    (c : Cache V) (w w1 : W) (old : cacheEntry V) (v : any V) (f : bool) :
  Enabled (config c) = true →
  lockstep c →
  Cache_Size c ≤ Size (config c) →
  entries c !! key = Some old →
  expiresAt old ≠ zeroTime → expiresAt old < atGet clk →
  fn ctx key w = ((v, f, None), w1) →
  f = true ∨ NegativeTTL (config c) ≠ 0 →
  (WrapWithCache (Some c) fn ctx key clk (c, w)).1 = (v, f, None) ∧
  entries (WrapWithCache (Some c) fn ctx key clk (c, w)).2.1 !! key
    = Some (mkCacheEntry v f (expiryFor (config c) (atSet clk) f)) ∧
  (∀ k, k ≠ key →
        entries (WrapWithCache (Some c) fn ctx key clk (c, w)).2.1 !! k
        = entries c !! k).
Proof.
  intros Hen Hinv Hle Hk Hz Hlt Hfn Hg.
  rewrite WrapWithCache_enabled by done.
  assert (isExpired (atGet clk) old = true) as Hexp.
  { unfold isExpired, IsZero, After.
    by rewrite bool_decide_eq_false_2, bool_decide_eq_true_2. }
  assert (get (atGet clk) key c
          = ((nil, false, false), removeEntryLocked key c)) as Hget.
  { unfold get. by rewrite Hk, Hexp. }
  rewrite cachedLookup_miss by (by rewrite Hget). rewrite Hget, Hfn. simpl.
  pose proof (removeEntryLocked_lockstep key c Hinv) as Hinv1.
  assert (config (removeEntryLocked key c) = config c) as Hcfg.
  { unfold removeEntryLocked. by destruct (rangeFind key (order c)). }
  assert (entries (removeEntryLocked key c) !! key = None) as Hk1.
  { rewrite removeEntryLocked_entries. apply lookup_delete_eq. }
  rewrite set_new_room; [| done | done | by rewrite Hcfg |].
  - simpl. rewrite Hcfg, removeEntryLocked_entries. split_and!.
    + done.
    + apply lookup_insert_eq.
    + intros k Hne. by rewrite lookup_insert_ne, lookup_delete_ne.
  - rewrite <- (lockstep_size _ _ Hinv1), Hcfg, removeEntryLocked_entries.
    rewrite map_size_delete_Some by eauto.
    assert (size (entries c) ≠ 0%nat) as Hnz.
    { intros H0. apply map_size_empty_inv in H0. by rewrite H0 in Hk. }
    unfold Cache_Size in Hle. lia.
Qed.

Lemma expired_refresh_evicts_nothing_witness :
  entries (WrapWithCache (Some expiring) baseFn tt "key" (mkClock 61 62)
             (expiring, tt)).2.1 !! "key"
  = Some (mkCacheEntry (Some "value-key") true 112).
Proof.
  destruct (expired_refresh_evicts_nothing baseFn tt "key" (mkClock 61 62)
              expiring tt tt (mkCacheEntry (Some "value") true 51)
              (Some "value-key") true) as (_ & Hfresh & _);
    [reflexivity | | vm_compute; discriminate | vm_compute; reflexivity
     | done | done | reflexivity | by left | exact Hfresh].
  split; [vm_compute; reflexivity | apply NoDup_singleton].
Defined.

(** ** The dns source *)

Lemma string_length_app (a b : string) :
  String.length (a +:+ b) = (String.length a + String.length b)%nat.
Proof. induction a as [|ch a IH]; simpl; [done | by rewrite IH]. Qed.

Lemma substring_whole (b : string) :
  String.substring 0 (String.length b) b = b.
Proof. induction b as [|ch b IH]; simpl; [done | by rewrite IH]. Qed.

Lemma substring_app_tail (a b : string) :
  String.substring (String.length a) (String.length b) (a +:+ b) = b.
Proof. induction a as [|ch a IH]; simpl; [apply substring_whole | done]. Qed.

Lemma substring_app_head (a b : string) :
  String.substring 0 (String.length a) (a +:+ b) = a.
Proof.
  induction a as [|ch a IH]; simpl; [by destruct b | by rewrite IH].
Qed.

(** [TrimSuffix] takes a suffix that is there off, once. *)
Lemma TrimSuffix_app (a b : string) : TrimSuffix (a +:+ b) b = a.
Proof.
  unfold TrimSuffix, HasSuffix. rewrite string_length_app.
  replace (String.length a + String.length b - String.length b)%nat
    with (String.length a) by lia.
  rewrite substring_app_tail, substring_app_head.
  by rewrite !bool_decide_eq_true_2 by (done || lia).
Qed.

Section dns_facts.
Context {E Ctx W : Type}.
Implicit Types (env : Net E Ctx W) (s : dnsSource E Ctx W).

(** Two decorated calls, the first a miss that stores its result, the
    second served from the cache. *)
Lemma twoCalls_miss_then_hit (fn : LookupFunc string E Ctx W) ctx key
    clk1 clk2 (c : Cache string) w w' v f :
  Enabled (config c) = true →
  (get (atGet clk1) key c).1.2 = false →
  fn ctx key w = ((v, f, None), w') →
  cacheable (config c) f →
  (0 < (if f then TTL (config c) else NegativeTTL (config c)) →
   atGet clk2
   ≤ atSet clk1 + (if f then TTL (config c) else NegativeTTL (config c))) →
  twoCalls (WrapWithCache (Some c) fn) ctx key clk1 clk2 (c, w)
  = ((v, f, None), (v, f, None),
     (set (atSet clk1) key v f (get (atGet clk1) key c).2, w')).
Proof.
  intros Hen Hmiss Hfn Hg Hlive.
  rewrite WrapWithCache_enabled by done. unfold twoCalls.
  rewrite cachedLookup_miss by done. simpl. rewrite Hfn.
  pose proof (get_config (atGet clk1) key c) as Hcfg.
  rewrite (cachedLookup_hit _ _ _ _ _ _
             (mkCacheEntry v f (expiryFor (config c) (atSet clk1) f))).
  - reflexivity.
  - rewrite <- Hcfg at 1. apply set_lookup. by rewrite Hcfg.
  - by apply stamped_live.
Qed.

Lemma lookupPTR_dns_failure env s ctx ip w names e d w1 :
  resolver s ctx ip w = ((names, Some e), w1) →
  asDNSError env e = Some d →
  IsNotFound d || IsTemporary d = true →
  dnsSource_lookupPTR env s ctx ip w = ((nil, false, None), w1).
Proof.
  intros Hr Hd Hflag. unfold dnsSource_lookupPTR. by rewrite Hr, Hd, Hflag.
Qed.

End dns_facts.

(** X16.  [Validate] accepts a configuration exactly when the record type
    is empty or [PTR] and the timeout is not negative; the server and the
    cache settings are not looked at.  A wrong record type is reported
    first, a negative timeout otherwise. *)
Theorem Validate_accepts_iff (Quote : string → string) (c : Config) :
  (Config_Validate Quote c = None ↔
     (Config_RecordType c = "" ∨ Config_RecordType c = "PTR") ∧
     0 ≤ Config_Timeout c) ∧
  (Config_RecordType c ≠ "" → Config_RecordType c ≠ "PTR" →
   Config_Validate Quote c
   = Some ("invalid record_type " +:+ Quote (Config_RecordType c) +:+
           ", only PTR is currently supported")) ∧
  (Config_RecordType c = "" ∨ Config_RecordType c = "PTR" →
   Config_Timeout c < 0 →
   Config_Validate Quote c = Some "timeout cannot be negative").
Proof.
  unfold Config_Validate, RecordTypePTR.
  repeat case_bool_decide; simpl; split_and!;
    try done; try (split; [done | intros [[?|?] ?]; done || lia]);
    try (split; [intros _; split; [eauto | lia] | done]);
    try (intros; lia); try (intros [?|?]; done).
Qed.

Lemma Validate_accepts_iff_witness :
  Config_Validate id (mkConfig "A" (-1) "" cfg0)
  = Some "invalid record_type A, only PTR is currently supported" ∧
  Config_Validate id (mkConfig "" (-1) "8.8.8.8:53" cfg0)
  = Some "timeout cannot be negative".
Proof.
  destruct (Validate_accepts_iff id (mkConfig "A" (-1) "" cfg0))
    as (_ & Hrt & _).
  destruct (Validate_accepts_iff id (mkConfig "" (-1) "8.8.8.8:53" cfg0))
    as (_ & _ & Hto).
  split; [by apply Hrt | apply Hto; [by left | done]].
Defined.

(** X17.  [lookupPTR] reports a name as found exactly when the resolver
    returned no error and at least one name; when nothing is found the
    value is nil; it returns an error exactly when the resolver returned
    one that is not a DNS error flagged not-found or temporary, and then
    it is the resolver's error. *)
Theorem lookupPTR_outcomes {E Ctx W} (env : Net E Ctx W)
    (s : dnsSource E Ctx W) (ctx : Ctx) (ip : string) (w w1 : W)
    (names : list string) (err : error E) :
  resolver s ctx ip w = ((names, err), w1) →
  (dnsSource_lookupPTR env s ctx ip w).2 = w1 ∧
  ((dnsSource_lookupPTR env s ctx ip w).1.1.2 = true ↔
     err = None ∧ names ≠ []) ∧
  ((dnsSource_lookupPTR env s ctx ip w).1.1.2 = false →
   (dnsSource_lookupPTR env s ctx ip w).1.1.1 = nil) ∧
  (∀ e, (dnsSource_lookupPTR env s ctx ip w).1.2 = Some e ↔
        err = Some e ∧
        ¬ ∃ d, asDNSError env e = Some d ∧
               IsNotFound d || IsTemporary d = true).
Proof.
  intros Hr. unfold dnsSource_lookupPTR. rewrite Hr.
  destruct err as [e0|].
  - destruct (asDNSError env e0) as [d|] eqn:Hd.
    + destruct (IsNotFound d || IsTemporary d) eqn:Hflag; simpl.
      * split_and!; [done | split; [done | by intros [? _]] | done |].
        intros e. split; [done|]. intros [[= ->] Hno]. destruct Hno. eauto.
      * split_and!; [done | split; [done | by intros [? _]] | done |].
        intros e. split.
        -- intros [= ->]. split; [done|]. intros (d' & Hd' & Hf).
           congruence.
        -- by intros [[= ->] _].
    + simpl. split_and!; [done | split; [done | by intros [? _]] | done |].
      intros e. split.
      * intros [= ->]. split; [done|]. intros (d' & Hd' & _). congruence.
      * by intros [[= ->] _].
  - destruct names as [|first rest]; simpl.
    + split_and!; [done | split; [done | by intros [_ ?]] | done |].
      intros e. split; [done | by intros [? _]].
    + split_and!; [done | done | done |].
      intros e. split; [done | by intros [? _]].
Qed.

Lemma lookupPTR_outcomes_witness :
  (dnsSource_lookupPTR testNet
     (mkDnsSource RecordTypePTR (5 * Second) testResolver)
     tt "192.168.1.1" tt).2 = tt ∧
  (dnsSource_lookupPTR testNet
     (mkDnsSource RecordTypePTR (5 * Second) testResolver)
     tt "192.168.1.1" tt).1.1.1 = nil.
Proof.
  destruct (lookupPTR_outcomes testNet
              (mkDnsSource RecordTypePTR (5 * Second) testResolver)
              tt "192.168.1.1" tt tt [] (Some "no such host") eq_refl)
    as (Hw & _ & Hnil & _).
  split; [exact Hw | by apply Hnil].
Defined.

(** X18.  The name [lookupPTR] returns is the first one the resolver gave,
    without its trailing dot: one dot is taken off, and a name without a
    trailing dot is returned as it is. *)
Theorem lookupPTR_trims_trailing_dot {E Ctx W} (env : Net E Ctx W)
    (s : dnsSource E Ctx W) (ctx : Ctx) (ip : string) (w w1 : W)
    (first : string) (rest : list string) :
  resolver s ctx ip w = ((first :: rest, None), w1) →
  (∀ host, first = host +:+ "." →
           dnsSource_lookupPTR env s ctx ip w = ((Some host, true, None), w1)) ∧
  (HasSuffix first "." = false →
   dnsSource_lookupPTR env s ctx ip w = ((Some first, true, None), w1)).
Proof.
  intros Hr. unfold dnsSource_lookupPTR. rewrite Hr. split.
  - intros host ->. by rewrite TrimSuffix_app.
  - intros Hno. unfold TrimSuffix. by rewrite Hno.
Qed.

Lemma lookupPTR_trims_trailing_dot_witness :
  dnsSource_lookupPTR testNet
    (mkDnsSource RecordTypePTR (5 * Second) testResolver) tt "8.8.8.8" tt
  = ((Some "dns.google", true, None), tt).
Proof.
  destruct (lookupPTR_trims_trailing_dot testNet
              (mkDnsSource RecordTypePTR (5 * Second) testResolver)
              tt "8.8.8.8" tt tt "dns.google." [] eq_refl) as [Hdot _].
  by apply Hdot.
Defined.

(** X19.  For a configuration that [Validate] accepts, [createSource]
    returns no error.  The lookup function it hands to [NewSource] runs
    the reverse lookup under a timeout that is positive (the configured
    one, or five seconds when none is configured) against the resolver
    that dials the configured server with that timeout, or the default
    resolver when no server is configured.  That function is wrapped with
    a new cache when the cache is enabled; when it is not, it is used bare
    and no cache is allocated. *)
Theorem createSource_validated {E Ctx W Source Hook : Type}
    (env : Net E Ctx W)
    (NewSource : CachedFunc string E Ctx W → (unit → string) →
                 option Hook → option Hook → Source)
    (Quote : string → string) (dnsCfg : Config) :
  Config_Validate Quote dnsCfg = None →
  ∃ (t : Duration) (r : Resolver E Ctx W) (base : LookupFunc string E Ctx W),
    0 < t ∧
    (Config_Timeout dnsCfg ≠ 0 → t = Config_Timeout dnsCfg) ∧
    (Config_Timeout dnsCfg = 0 → t = 5 * Second) ∧
    (Config_Server dnsCfg ≠ "" →
     r = dialResolver env t (Config_Server dnsCfg)) ∧
    (Config_Server dnsCfg = "" → r = DefaultResolver env) ∧
    (∀ rt ctx key w,
       base ctx key w
       = dnsSource_lookupPTR env (mkDnsSource rt t r)
           (WithTimeout env ctx t) key w) ∧
    createSource env NewSource dnsCfg =
      if Enabled (Config_Cache dnsCfg)
      then ((NewSource
               (WrapWithCache (Some (NewCache (Config_Cache dnsCfg))) base)
               (fun _ => sourceType) None None, None),
            Some (NewCache (Config_Cache dnsCfg)))
      else ((NewSource (bypass base) (fun _ => sourceType) None None, None),
            None).
Proof.
  intros Hval.
  assert (0 ≤ Config_Timeout dnsCfg) as Hto.
  { unfold Config_Validate in Hval.
    repeat case_bool_decide; simpl in Hval; try done; lia. }
  unfold createSource.
  set (t := if bool_decide (Config_Timeout dnsCfg = 0) then 5 * Second
            else Config_Timeout dnsCfg).
  set (r := if bool_decide (Config_Server dnsCfg ≠ "")
            then dialResolver env t (Config_Server dnsCfg)
            else DefaultResolver env).
  exists t, r,
    (dnsSource_lookup env
       (mkDnsSource
          (if bool_decide (Config_RecordType dnsCfg = "") then RecordTypePTR
           else Config_RecordType dnsCfg) t r)).
  split_and!.
  - unfold t, Second. case_bool_decide; lia.
  - intros Hnz. unfold t. by rewrite bool_decide_eq_false_2.
  - intros Hz. unfold t. by rewrite bool_decide_eq_true_2.
  - intros Hs. unfold r. by rewrite bool_decide_eq_true_2.
  - intros Hs. unfold r. rewrite bool_decide_eq_false_2; [done|]. by intros [].
  - done.
  - by destruct (Enabled _).
Qed.

Lemma createSource_validated_witness :
  (createSource (Hook:=unit) testNet (fun f _ _ _ => f)
     createDefaultConfig).1.2 = None ∧
  (createSource (Hook:=unit) testNet (fun f _ _ _ => f)
     createDefaultConfig).2
  = Some (NewCache (mkCacheConfig true 10000 (5 * Minute) (1 * Minute))).
Proof.
  destruct (createSource_validated (Hook:=unit) testNet (fun f _ _ _ => f) id
              createDefaultConfig eq_refl)
    as (t & r & base & _ & _ & _ & _ & _ & _ & ->).
  split; reflexivity.
Defined.

(** X20.  With the cache enabled and negative caching on, a reverse lookup
    that the resolver fails with a DNS error flagged not-found or
    temporary is stored as a negative result: the call returns not found
    without error, and a second lookup of the same address before the
    negative entry expires returns the same without querying the
    resolver. *)
Theorem dns_failure_cached_as_negative {E Ctx W} (env : Net E Ctx W)
    (s : dnsSource E Ctx W) (ctx : Ctx) (ip : string) (clk1 clk2 : Clock)
    (c : Cache string) (w w1 : W) (n : nat) (names : list string) (e : E)
    (d : DNSError) :
  Enabled (config c) = true →
  NegativeTTL (config c) ≠ 0 →
  (get (atGet clk1) ip c).1.2 = false →
  resolver s (WithTimeout env ctx (timeout s)) ip w = ((names, Some e), w1) →
  asDNSError env e = Some d →
  IsNotFound d || IsTemporary d = true →
  (0 < NegativeTTL (config c) →
   atGet clk2 ≤ atSet clk1 + NegativeTTL (config c)) →
  twoCalls
    (WrapWithCache (Some c)
       (dnsSource_lookup (countedNet env)
          (mkDnsSource (recordType s) (timeout s)
             (countedResolver (resolver s)))))
    ctx ip clk1 clk2 (c, (w, n))
  = ((nil, false, None), (nil, false, None),
     (set (atSet clk1) ip nil false (get (atGet clk1) ip c).2, (w1, S n))).
Proof.
  intros Hen Hneg Hmiss Hr Hd Hflag Hlive.
  apply twoCalls_miss_then_hit; [done | done | | by right | done].
  unfold dnsSource_lookup. simpl.
  apply (lookupPTR_dns_failure _ _ _ _ _ names e d); [|done | done].
  simpl. unfold countedResolver. by rewrite Hr.
Qed.

Lemma dns_failure_cached_as_negative_witness :
  twoCalls
    (WrapWithCache (Some (NewCache (Config_Cache createDefaultConfig)))
       (dnsSource_lookup (countedNet testNet)
          (mkDnsSource RecordTypePTR (5 * Second)
             (countedResolver testResolver))))
    tt "192.168.1.1" (mkClock 10 11) (mkClock 20 21)
    (NewCache (Config_Cache createDefaultConfig), (tt, 0%nat))
  = ((nil, false, None), (nil, false, None),
     (set 11 "192.168.1.1" nil false
        (NewCache (Config_Cache createDefaultConfig)), (tt, 1%nat))).
Proof.
  apply (dns_failure_cached_as_negative testNet
           (mkDnsSource RecordTypePTR (5 * Second) testResolver)
           tt "192.168.1.1" (mkClock 10 11) (mkClock 20 21)
           (NewCache (Config_Cache createDefaultConfig)) tt tt 0 []
           "no such host" (mkDNSError true false));
    [reflexivity | done | reflexivity | reflexivity | reflexivity
     | reflexivity | simpl; unfold Minute, Second; lia].
Defined.

(** ** Insertion order and eviction *)

Section fifo_facts.
Context {V : Type}.
Implicit Types (c : Cache V) (calls : list (SetCall V)).

Lemma runSets_snoc calls (call : SetCall V) c :
  runSets (calls ++ [call]) c = applySet (runSets calls c) call.
Proof. unfold runSets. by rewrite foldl_app. Qed.

Lemma runSets_config calls c : config (runSets calls c) = config c.
Proof.
  revert c. induction calls as [|[[[now key] val] fnd] calls IH];
    intros c; simpl; [done|].
  unfold runSets in *. simpl. by rewrite IH, set_config.
Qed.

Lemma runSets_lockstep calls c : lockstep c → lockstep (runSets calls c).
Proof.
  revert c. induction calls as [|[[[now key] val] fnd] calls IH];
    intros c Hinv; simpl; [done|].
  unfold runSets in *. simpl. by apply IH, set_lockstep.
Qed.

(** After distinct keys were inserted into a new cache, the order sequence
    holds the last [Size] of them, oldest first. *)
Lemma runSets_distinct_order cfg calls :
  0 < Size cfg →
  NoDup (keysOf calls) →
  Forall (λ call : SetCall V, cacheable cfg call.2) calls →
  order (runSets calls (NewCache cfg))
  = drop (length calls - Z.to_nat (Size cfg)) (keysOf calls).
Proof.
  intros Hpos. induction calls as [|[[[now key] val] fnd] calls IH]
    using rev_ind; intros Hnd Hall; [done|].
  unfold keysOf in *. rewrite fmap_app in Hnd. simpl in Hnd.
  apply NoDup_app in Hnd as (Hnd & Hdisj & _).
  apply Forall_app in Hall as [Hall Hlast].
  rewrite Forall_singleton in Hlast. simpl in Hlast.
  specialize (IH Hnd Hall).
  rewrite runSets_snoc. simpl.
  pose proof (runSets_lockstep calls _ (NewCache_lockstep (V:=V) cfg)) as Hinv.
  pose proof (runSets_config calls (NewCache (V:=V) cfg)) as Hcfg.
  simpl in Hcfg.
  set (c := runSets calls (NewCache cfg)) in *.
  assert (key ∉ order c) as Hnin.
  { rewrite IH. intros Hin. apply subseteq_drop in Hin.
    apply (Hdisj key); [done | left]. }
  assert (entries c !! key = None) as Hk.
  { destruct (entries c !! key) eqn:Hk; [|done]. destruct Hnin.
    apply (lockstep_lookup _ _ _ Hinv). eauto. }
  assert (length (order c) = Nat.min (length calls) (Z.to_nat (Size cfg)))
    as Hlen.
  { rewrite IH, length_drop, length_fmap. lia. }
  rewrite fmap_app, length_app. simpl.
  destruct (decide (length calls < Z.to_nat (Size cfg))%nat) as [Hroom|Hfull].
  - rewrite set_new_room; [| done | done | by rewrite Hcfg | rewrite Hcfg; lia].
    simpl. rewrite IH.
    replace (length calls - Z.to_nat (Size cfg))%nat with 0%nat by lia.
    replace (length calls + 1 - Z.to_nat (Size cfg))%nat with 0%nat by lia.
    by rewrite !drop_0.
  - destruct (order c) as [|oldest rest] eqn:Hord.
    { simpl in Hlen. lia. }
    rewrite (set_new_full now key val fnd c oldest rest);
      [| done | done | by rewrite Hcfg | done
       | rewrite Hcfg, Hord; simpl in *; lia].
    simpl.
    rewrite drop_app_le by (rewrite length_fmap; lia).
    f_equal.
    replace (length calls + 1 - Z.to_nat (Size cfg))%nat
      with (S (length calls - Z.to_nat (Size cfg))) by lia.
    change (S (length calls - Z.to_nat (Size cfg)))
      with (1 + (length calls - Z.to_nat (Size cfg)))%nat.
    rewrite Nat.add_comm, <- drop_drop, <- IH. done.
Qed.

End fifo_facts.

Lemma filter_ne_notin (key : string) (l : list string) :
  key ∉ l → filter (λ k, k ≠ key) l = l.
Proof.
  induction l as [|x l IH]; [done|].
  intros [Hne Hnin]%not_elem_of_cons.
  rewrite filter_cons_True by done. by rewrite IH.
Qed.

(** X21.  In a reachable state [removeEntryLocked] removes the key and only
    the key: afterwards it is in neither structure, every other key has
    its entry and its place relative to the others, [Size()] is one less
    if the key was resident, and the cache is untouched if it was not. *)
Theorem removeEntryLocked_exact {V} (key : string) (c : Cache V) :
  lockstep c →
  entries (removeEntryLocked key c) !! key = None ∧
  (key ∉ order (removeEntryLocked key c)) ∧
  (∀ k, k ≠ key → entries (removeEntryLocked key c) !! k = entries c !! k) ∧
  order (removeEntryLocked key c) = filter (λ k, k ≠ key) (order c) ∧
  (is_Some (entries c !! key) →
   Cache_Size (removeEntryLocked key c) = Cache_Size c - 1) ∧
  (entries c !! key = None → removeEntryLocked key c = c).
Proof.
  intros Hinv.
  destruct (removeEntryLocked_gone key c Hinv) as [Hgone Hnin].
  split_and!; [done | done | | | |].
  - intros k Hne. rewrite removeEntryLocked_entries. by apply lookup_delete_ne.
  - rewrite <- (filter_ne_notin key (order (removeEntryLocked key c))) by done.
    unfold removeEntryLocked.
    destruct (rangeFind key (order c)) as [i|] eqn:Hr; simpl; [|done].
    by apply cutAt_filter.
  - intros [e He]. unfold Cache_Size.
    rewrite removeEntryLocked_entries, map_size_delete_Some by eauto.
    assert (size (entries c) ≠ 0%nat) as Hnz.
    { intros H0. apply map_size_empty_inv in H0. by rewrite H0 in He. }
    lia.
  - intros Hk. unfold removeEntryLocked.
    assert (key ∉ order c) as Hno.
    { intros Hin. apply (lockstep_lookup _ _ _ Hinv) in Hin as [e He].
      congruence. }
    apply rangeFind_None in Hno. rewrite Hno.
    rewrite delete_id by done. by destruct c.
Qed.

Lemma removeEntryLocked_exact_witness :
  order (removeEntryLocked "key1" twoKeys) = ["key2"] ∧
  removeEntryLocked "other" twoKeys = twoKeys.
Proof.
  assert (lockstep twoKeys) as Hinv.
  { split; [vm_compute; reflexivity|].
    repeat (apply NoDup_cons_2; [set_solver|]). apply NoDup_nil_2. }
  destruct (removeEntryLocked_exact "key1" twoKeys Hinv)
    as (_ & _ & _ & Hord & _).
  destruct (removeEntryLocked_exact "other" twoKeys Hinv)
    as (_ & _ & _ & _ & _ & Hnoop).
  split; [rewrite Hord; reflexivity | by apply Hnoop].
Defined.

(** X22.  After distinct keys have been stored in a new cache with a
    positive [Size], the keys resident are the last [Size] of them (all of
    them when there are fewer), and the order sequence lists them oldest
    first. *)
Theorem distinct_inserts_keep_newest {V} (cfg : CacheConfig)
    (calls : list (SetCall V)) :
  0 < Size cfg →
  NoDup (keysOf calls) →
  Forall (λ call : SetCall V, call.2 = true ∨ NegativeTTL cfg ≠ 0) calls →
  order (runSets calls (NewCache cfg))
    = drop (length calls - Z.to_nat (Size cfg)) (keysOf calls) ∧
  (∀ k, is_Some (entries (runSets calls (NewCache cfg)) !! k) ↔
        k ∈ drop (length calls - Z.to_nat (Size cfg)) (keysOf calls)).
Proof.
  intros Hpos Hnd Hall.
  pose proof (runSets_distinct_order cfg calls Hpos Hnd Hall) as Hord.
  split; [done|]. intros k. rewrite <- Hord. symmetry.
  apply lockstep_lookup, runSets_lockstep, NewCache_lockstep.
Qed.

Lemma distinct_inserts_keep_newest_witness :
  order (runSets [(1, "key1", Some "value1", true);
                  (2, "key2", Some "value2", true);
                  (3, "key3", Some "value3", true);
                  (4, "key4", Some "value4", true)] (NewCache cfg3))
  = ["key2"; "key3"; "key4"].
Proof.
  destruct (distinct_inserts_keep_newest cfg3
              [(1, "key1", Some "value1", true);
               (2, "key2", Some "value2", true);
               (3, "key3", Some "value3", true);
               (4, "key4", Some "value4", true)]) as [Hord _].
  - done.
  - repeat (apply NoDup_cons_2; [set_solver|]). apply NoDup_nil_2.
  - repeat (apply Forall_cons; split; [by left|]). apply Forall_nil_2.
  - exact Hord.
Defined.
